(** * An object pool (pule / nage): model and verified properties

    The repository ships one class in two revisions: [Pool]
    (src/index.ts: create / onRelease / onReserve, [clear]) and [Nage]
    (the later revision: adds [initialSize], prepopulation and [reset]).
    Both are embedded below, method by method, as state-passing functions
    over the pool object and the rest of the JavaScript world. *)

From Stdlib Require Import ZArith.
From stdpp Require Import gmap strings list pretty.

Local Open Scope Z_scope.

(** ** JavaScript values *)

(** Objects have reference identity.  A reference is a plain object, a user
    function, or the module's own [getEmptyObject] function. *)
Inductive ref :=
  | RObj (l : nat)
  | RFun (f : nat)
  | RGetEmptyObject.

#[global] Instance ref_eq_dec : EqDecision ref.
Proof. solve_decision. Defined.

#[global] Instance ref_countable : Countable ref.
Proof.
  refine (inj_countable'
    (λ r, match r with
          | RObj l => inl l
          | RFun f => inr (inl f)
          | RGetEmptyObject => inr (inr ())
          end)
    (λ s, match s with
          | inl l => RObj l
          | inr (inl f) => RFun f
          | inr (inr _) => RGetEmptyObject
          end) _).
  by intros [].
Defined.

(** Numbers are the integers plus NaN; fractions and infinities are not
    needed by the pool. *)
Inductive value :=
  | VUndefined
  | VNull
  | VBool (b : bool)
  | VNum (n : Z)
  | VNaN
  | VStr (s : string)
  | VRef (r : ref).

#[global] Instance value_eq_dec : EqDecision value.
Proof. solve_decision. Defined.

(** [if (v)] *)
Definition truthy (v : value) : bool :=
  match v with
  | VUndefined | VNull | VNaN => false
  | VBool b => b
  | VNum n => negb (n =? 0)
  | VStr s => negb (String.eqb s "")
  | VRef _ => true
  end.

(** [typeof v] *)
Definition typeof (v : value) : string :=
  match v with
  | VUndefined => "undefined"
  | VNull => "object"
  | VBool _ => "boolean"
  | VNum _ | VNaN => "number"
  | VStr _ => "string"
  | VRef (RObj _) => "object"
  | VRef (RFun _) | VRef RGetEmptyObject => "function"
  end.

(** [typeof v === 'function'] *)
Definition is_function (v : value) : bool := String.eqb (typeof v) "function".

(** [a === b] *)
Definition strict_eq (a b : value) : bool :=
  match a, b with
  | VNaN, _ | _, VNaN => false
  | _, _ => bool_decide (a = b)
  end.

(** Destructuring default: [{ x = d }] takes [d] exactly when the property
    is [undefined]. *)
Definition default_to (d v : value) : value :=
  match v with VUndefined => d | _ => v end.

(** ** Errors and completions *)

Inductive exn :=
  | Error (msg : string)        (* [throw new Error(msg)] by the pool *)
  | TypeError (msg : string)    (* raised by the runtime *)
  | Thrown (v : value).         (* whatever a user callback throws *)

Inductive completion (A : Type) :=
  | Normal (a : A)
  | Throw (e : exn).
Arguments Normal {A} a.
Arguments Throw {A} e.

(** The two errors the specification names. *)
Definition OwnershipError : exn := Error "Object passed is not part of this pool.".
Definition ConfigurationError (what : string) : exn := Error (what +:+ " must be a function").

(** ** A state-and-exception monad

    A throw keeps the state reached so far: mutations made before the throw
    stay visible. *)
Definition M (S A : Type) : Type := S → completion A * S.

Definition ret {S A} (a : A) : M S A := λ s, (Normal a, s).
Definition throw {S A} (e : exn) : M S A := λ s, (Throw e, s).
Definition bind {S A B} (m : M S A) (k : A → M S B) : M S B :=
  λ s, match m s with
       | (Normal a, s') => k a s'
       | (Throw e, s') => (Throw e, s')
       end.

Notation "'let*' x ':=' m 'in' k" := (bind m (λ x, k))
  (at level 10, x pattern, m at level 100, k at level 200).

Definition when {S} (c : bool) (m : M S unit) : M S unit :=
  if c then m else ret tt.

(** ** Arrays *)

(** [stack.indexOf(x)]: first index holding a value [===] to [x], else -1. *)
Fixpoint indexOf_from (i : Z) (l : list value) (x : value) : Z :=
  match l with
  | [] => -1
  | y :: l' => if strict_eq y x then i else indexOf_from (i + 1) l' x
  end.
Definition indexOf : list value → value → Z := indexOf_from 0.

(** [stack.length] *)
Definition array_length (l : list value) : Z := Z.of_nat (length l).

(** [stack.push(x)] appends at the end of the array. *)
Definition push (x : value) (l : list value) : list value := l ++ [x].

(** ** WeakMap<Entry, string> *)

(** [entries.get(k)]: [undefined] for a missing key, and for a key that is
    not an object. *)
Definition weakmap_get (m : gmap ref string) (k : value) : value :=
  match k with
  | VRef r => match m !! r with Some s => VStr s | None => VUndefined end
  | _ => VUndefined
  end.

(** [entries.set(k, s)]: a key that is not an object is a TypeError. *)
Definition weakmap_set (k : value) (s : string) (m : gmap ref string)
  : completion (gmap ref string) :=
  match k with
  | VRef r => Normal (<[r := s]> m)
  | _ => Throw (TypeError "Invalid value used as weak map key")
  end.

(** ** The world outside the pool *)

Section World.
Context {U : Type}.

(** The heap the callbacks run on: the next unused object address and the
    callbacks' own state. *)
Record heap := Heap { next_loc : nat; user : U }.

(** One record per function call made by the pool. *)
Record event := Call { callee : value; args : list value; outcome : completion value }.

(** [timeBasis] is the module-level counter; [calls] is the log of the
    calls the pool has made, oldest first. *)
Record world := World { hp : heap; timeBasis : Z; calls : list event }.

(** What a call of a user function does: it returns a value or throws
    one. *)
Inductive outcome_of_call := Returns (v : value) | Throws (v : value).

Definition completion_of (o : outcome_of_call) : completion value :=
  match o with Returns v => Normal v | Throws v => Throw (Thrown v) end.

(** Behaviour of the user's functions: function [f] applied to arguments
    on a heap.  Callbacks act on the heap only; they do not reach into
    the pool object they are attached to. *)
Definition behaviour : Type := nat → list value → heap → outcome_of_call * heap.

(** [function getEmptyObject() { return {}; }] *)
Definition getEmptyObject (h : heap) : outcome_of_call * heap :=
  (Returns (VRef (RObj (next_loc h))), Heap (S (next_loc h)) (user h)).

(** [f(...args)], logged. *)
Definition invoke (apply : behaviour) (f : value) (args : list value) : M world value :=
  λ w,
    let run (body : heap → outcome_of_call * heap) :=
      let '(o, h') := body (hp w) in
      (completion_of o,
       World h' (timeBasis w) (calls w ++ [Call f args (completion_of o)])) in
    match f with
    | VRef (RFun n) => run (apply n args)
    | VRef RGetEmptyObject => run getEmptyObject
    | _ => (Throw (TypeError "not a function"), w)
    end.

(** [timeBasis++] *)
Definition timeBasis_postincr : M world Z :=
  λ w, (Normal (timeBasis w), World (hp w) (timeBasis w + 1) (calls w)).

(** Run a computation on the world next to an object [T]. *)
Definition liftW {T A} (m : M world A) : M (T * world) A :=
  λ '(p, w), let '(r, w') := m w in (r, (p, w')).

Definition get_this {T} : M (T * world) T := λ '(p, w), (Normal p, (p, w)).
Definition modify_this {T} (f : T → T) : M (T * world) unit :=
  λ '(p, w), (Normal tt, (f p, w)).
End World.
Arguments heap : clear implicits.
Arguments world : clear implicits.
Arguments behaviour : clear implicits.

(** ** [class Pool] (src/index.ts) *)

Module Pool.

Record Options := {
  opt_create : value;
  opt_onRelease : value;
  opt_onReserve : value;
}.

(** [EMPTY_OBJECT]: every option is [undefined]. *)
Definition EMPTY_OBJECT : Options :=
  {| opt_create := VUndefined; opt_onRelease := VUndefined; opt_onReserve := VUndefined |}.

Record t := {
  entries : gmap ref string;
  name : string;
  create : value;
  onRelease : value;
  onReserve : value;
  stack : list value;
  frozen : bool;
}.

Definition set_entries (m : gmap ref string) (p : t) : t :=
  {| entries := m; name := name p; create := create p; onRelease := onRelease p;
     onReserve := onReserve p; stack := stack p; frozen := frozen p |}.
Definition set_name (s : string) (p : t) : t :=
  {| entries := entries p; name := s; create := create p; onRelease := onRelease p;
     onReserve := onReserve p; stack := stack p; frozen := frozen p |}.
Definition set_create (v : value) (p : t) : t :=
  {| entries := entries p; name := name p; create := v; onRelease := onRelease p;
     onReserve := onReserve p; stack := stack p; frozen := frozen p |}.
Definition set_onRelease (v : value) (p : t) : t :=
  {| entries := entries p; name := name p; create := create p; onRelease := v;
     onReserve := onReserve p; stack := stack p; frozen := frozen p |}.
Definition set_onReserve (v : value) (p : t) : t :=
  {| entries := entries p; name := name p; create := create p; onRelease := onRelease p;
     onReserve := v; stack := stack p; frozen := frozen p |}.
Definition set_stack (l : list value) (p : t) : t :=
  {| entries := entries p; name := name p; create := create p; onRelease := onRelease p;
     onReserve := onReserve p; stack := l; frozen := frozen p |}.
Definition freeze (p : t) : t :=
  {| entries := entries p; name := name p; create := create p; onRelease := onRelease p;
     onReserve := onReserve p; stack := stack p; frozen := true |}.

(** The object [this] at the start of the constructor: no field assigned. *)
Definition blank : t :=
  {| entries := ∅; name := ""; create := VUndefined; onRelease := VUndefined;
     onReserve := VUndefined; stack := []; frozen := false |}.

Section Methods.
Context {U : Type} (apply : behaviour U).

Abbreviation method := (M (t * world U)).

(** [if (hook) { if (typeof hook === 'function') { this.hook = hook; }
    else if (DEV) { throw new Error('<label> must be a function'); } }] *)
Definition install_hook (DEV : bool) (label : string) (hook : value)
    (store : value → t → t) : method unit :=
  when (truthy hook)
    (if is_function hook then modify_this (store hook)
     else when DEV (throw (ConfigurationError label))).

(** The constructor body, run on [this].  [rnd] is the value of
    [(Math.random() * 1e9) >>> 0]. *)
Definition constructor_body (DEV : bool) (rnd : Z) (options : Options) : method unit :=
  let create := default_to (VRef RGetEmptyObject) (opt_create options) in
  let onRelease := opt_onRelease options in
  let onReserve := opt_onReserve options in
  let* _ := modify_this (set_entries ∅) in
  let* tb := liftW timeBasis_postincr in
  let* _ := modify_this (set_name ("pool_" +:+ pretty tb +:+ "_" +:+ pretty rnd)) in
  let* _ := modify_this (set_stack []) in
  let* _ := when (negb (is_function create)) (throw (ConfigurationError "create")) in
  let* _ := modify_this (set_create create) in
  let* _ := install_hook DEV "onRelease" onRelease set_onRelease in
  let* _ := install_hook DEV "onReserve" onReserve set_onReserve in
  when DEV (modify_this freeze).

(** [new Pool(options)]: the new object when the body completes. *)
Definition constructor (DEV : bool) (rnd : Z) (options : Options)
    : M (world U) t :=
  λ w, match constructor_body DEV rnd options (blank, w) with
       | (Normal _, (this, w')) => (Normal this, w')
       | (Throw e, (_, w')) => (Throw e, w')
       end.

(** [createPool(options)] *)
Definition createPool := constructor.

(** [get size()] *)
Definition size (this : t) : Z := array_length (stack this).

(** [clear()] *)
Definition clear : method unit := modify_this (set_stack []).

(** [this.entries.set(entry, this.name)] *)
Definition entries_set (entry : value) : method unit :=
  λ '(this, w),
    match weakmap_set entry (name this) (entries this) with
    | Normal m => (Normal tt, (set_entries m this, w))
    | Throw e => (Throw e, (this, w))
    end.

Definition generate : method value :=
  let* this := get_this in
  let* entry := liftW (invoke apply (create this) []) in
  let* _ := entries_set entry in
  ret entry.

(** [stack.pop()] *)
Definition stack_pop : method value :=
  λ '(this, w),
    match last (stack this) with
    | Some x => (Normal x, (set_stack (removelast (stack this)) this, w))
    | None => (Normal VUndefined, (this, w))
    end.

(** [if (hook) { hook(entry); }] *)
Definition run_hook (hook entry : value) : method unit :=
  when (truthy hook) (let* _ := liftW (invoke apply hook [entry]) in ret tt).

Definition reserve : method value :=
  let* this := get_this in
  let onReserve := onReserve this in
  let* reserved :=
    (if negb (array_length (stack this) =? 0) then stack_pop else generate) in
  let* _ := run_hook onReserve reserved in
  ret reserved.

Definition release (entry : value) : method unit :=
  let* this := get_this in
  let onRelease := onRelease this in
  let* _ := when (negb (strict_eq (weakmap_get (entries this) entry) (VStr (name this))))
              (throw OwnershipError) in
  when (indexOf (stack this) entry =? -1)
    (let* _ := run_hook onRelease entry in
     modify_this (λ p, set_stack (push entry (stack p)) p)).
End Methods.

End Pool.

(** [for (const x of l) body(x)], stopping at the first throw. *)
Fixpoint for_each {S A} (l : list A) (body : A → M S unit) : M S unit :=
  match l with
  | [] => ret tt
  | x :: l' => let* _ := body x in for_each l' body
  end.

(** ** [class Nage] (the revision with [initialSize] and [reset]) *)

Module Nage.

(** [initialSize] is typed [number]; [None] is an omitted option. *)
Record Options := {
  opt_create : value;
  opt_initialSize : option Z;
  opt_onRelease : value;
  opt_onReserve : value;
}.

Definition EMPTY_OBJECT : Options :=
  {| opt_create := VUndefined; opt_initialSize := None;
     opt_onRelease := VUndefined; opt_onReserve := VUndefined |}.

Record t := {
  entries : gmap ref string;
  initialSize : Z;
  name : string;
  create : value;
  onRelease : value;
  onReserve : value;
  stack : list value;
  frozen : bool;
}.

Definition set_entries (m : gmap ref string) (p : t) : t :=
  {| entries := m; initialSize := initialSize p; name := name p; create := create p;
     onRelease := onRelease p; onReserve := onReserve p; stack := stack p;
     frozen := frozen p |}.
Definition set_initialSize (n : Z) (p : t) : t :=
  {| entries := entries p; initialSize := n; name := name p; create := create p;
     onRelease := onRelease p; onReserve := onReserve p; stack := stack p;
     frozen := frozen p |}.
Definition set_name (s : string) (p : t) : t :=
  {| entries := entries p; initialSize := initialSize p; name := s; create := create p;
     onRelease := onRelease p; onReserve := onReserve p; stack := stack p;
     frozen := frozen p |}.
Definition set_create (v : value) (p : t) : t :=
  {| entries := entries p; initialSize := initialSize p; name := name p; create := v;
     onRelease := onRelease p; onReserve := onReserve p; stack := stack p;
     frozen := frozen p |}.
Definition set_onRelease (v : value) (p : t) : t :=
  {| entries := entries p; initialSize := initialSize p; name := name p; create := create p;
     onRelease := v; onReserve := onReserve p; stack := stack p; frozen := frozen p |}.
Definition set_onReserve (v : value) (p : t) : t :=
  {| entries := entries p; initialSize := initialSize p; name := name p; create := create p;
     onRelease := onRelease p; onReserve := v; stack := stack p; frozen := frozen p |}.
Definition set_stack (l : list value) (p : t) : t :=
  {| entries := entries p; initialSize := initialSize p; name := name p; create := create p;
     onRelease := onRelease p; onReserve := onReserve p; stack := l; frozen := frozen p |}.
Definition freeze (p : t) : t :=
  {| entries := entries p; initialSize := initialSize p; name := name p; create := create p;
     onRelease := onRelease p; onReserve := onReserve p; stack := stack p; frozen := true |}.

Definition blank : t :=
  {| entries := ∅; initialSize := 0; name := ""; create := VUndefined;
     onRelease := VUndefined; onReserve := VUndefined; stack := []; frozen := false |}.

Section Methods.
Context {U : Type} (apply : behaviour U).

Abbreviation method := (M (t * world U)).

(** [get size()] *)
Definition size (this : t) : Z := array_length (stack this).

(** [this.entries.set(entry, this.name)] *)
Definition entries_set (entry : value) : method unit :=
  λ '(this, w),
    match weakmap_set entry (name this) (entries this) with
    | Normal m => (Normal tt, (set_entries m this, w))
    | Throw e => (Throw e, (this, w))
    end.

Definition generate : method value :=
  let* this := get_this in
  let* entry := liftW (invoke apply (create this) []) in
  let* _ := entries_set entry in
  ret entry.

(** [if (hook) { hook(entry); }] *)
Definition run_hook (hook entry : value) : method unit :=
  when (truthy hook) (let* _ := liftW (invoke apply hook [entry]) in ret tt).

Definition release (entry : value) : method unit :=
  let* this := get_this in
  let onRelease := onRelease this in
  let* _ := when (negb (strict_eq (weakmap_get (entries this) entry) (VStr (name this))))
              (throw OwnershipError) in
  when (indexOf (stack this) entry =? -1)
    (let* _ := run_hook onRelease entry in
     modify_this (λ p, set_stack (push entry (stack p)) p)).

(** [stack.pop()] *)
Definition stack_pop : method value :=
  λ '(this, w),
    match last (stack this) with
    | Some x => (Normal x, (set_stack (removelast (stack this)) this, w))
    | None => (Normal VUndefined, (this, w))
    end.

Definition reserve : method value :=
  let* this := get_this in
  let onReserve := onReserve this in
  let* reserved :=
    (if negb (array_length (stack this) =? 0) then stack_pop else generate) in
  let* _ := run_hook onReserve reserved in
  ret reserved.

(** [this.stack.push(this.generate())] *)
Definition generate_push : method unit :=
  let* entry := generate in
  modify_this (λ p, set_stack (push entry (stack p)) p).

(** [if (n) { for (let index = 0; index < n; ++index) {
      this.stack.push(this.generate()); } }] *)
Definition populate (n : Z) : method unit :=
  when (negb (n =? 0)) (for_each (seqZ 0 n) (λ _ : Z, generate_push)).

Definition reset : method unit :=
  let* _ := modify_this (set_stack []) in
  let* this := get_this in
  populate (initialSize this).

(** [if (hook) { if (typeof hook === 'function') { this.hook = hook; }
    else if (DEV) { throw new Error('<label> must be a function'); } }] *)
Definition install_hook (DEV : bool) (label : string) (hook : value)
    (store : value → t → t) : method unit :=
  when (truthy hook)
    (if is_function hook then modify_this (store hook)
     else when DEV (throw (ConfigurationError label))).

(** The constructor body, run on [this].  [rnd] is the value of
    [(Math.random() * 1e9) >>> 0]. *)
Definition constructor_body (DEV : bool) (rnd : Z) (options : Options) : method unit :=
  let create := default_to (VRef RGetEmptyObject) (opt_create options) in
  let initialSize := default 0 (opt_initialSize options) in
  let onRelease := opt_onRelease options in
  let onReserve := opt_onReserve options in
  let* _ := modify_this (set_entries ∅) in
  let* _ := modify_this (set_initialSize initialSize) in
  let* tb := liftW timeBasis_postincr in
  let* _ := modify_this (set_name ("nage_" +:+ pretty tb +:+ "_" +:+ pretty rnd)) in
  let* _ := modify_this (set_stack []) in
  let* _ := when (negb (is_function create)) (throw (ConfigurationError "create")) in
  let* _ := modify_this (set_create create) in
  let* _ := install_hook DEV "onRelease" onRelease set_onRelease in
  let* _ := install_hook DEV "onReserve" onReserve set_onReserve in
  let* _ := populate initialSize in
  when DEV (modify_this freeze).

(** [new Nage(options)]: the new object when the body completes. *)
Definition constructor (DEV : bool) (rnd : Z) (options : Options)
    : M (world U) t :=
  λ w, match constructor_body DEV rnd options (blank, w) with
       | (Normal _, (this, w')) => (Normal this, w')
       | (Throw e, (_, w')) => (Throw e, w')
       end.
End Methods.

End Nage.

(** ** Vocabulary of the properties *)

Section Vocabulary.
Context {U : Type} (apply : behaviour U).


(** The ownership lookup of [release] yields the pool's own name. *)
Definition pool_owns (p : Pool.t) (e : value) : Prop :=
  weakmap_get (Pool.entries p) e = VStr (Pool.name p).
Definition nage_owns (p : Nage.t) (e : value) : Prop :=
  weakmap_get (Nage.entries p) e = VStr (Nage.name p).

(** Every entry of the free list is registered under the pool's name. *)
Definition pool_stack_registered (p : Pool.t) : Prop :=
  Forall (pool_owns p) (Pool.stack p).
Definition nage_stack_registered (p : Nage.t) : Prop :=
  Forall (nage_owns p) (Nage.stack p).

(** [p'] is a later state of the pool object [p]: same identity and
    callbacks, and a registry that has only grown. *)
Definition pool_extends (p p' : Pool.t) : Prop :=
  Pool.name p' = Pool.name p ∧ Pool.create p' = Pool.create p ∧
  Pool.onRelease p' = Pool.onRelease p ∧ Pool.onReserve p' = Pool.onReserve p ∧
  ∀ e, pool_owns p e → pool_owns p' e.
Definition nage_extends (p p' : Nage.t) : Prop :=
  Nage.name p' = Nage.name p ∧ Nage.create p' = Nage.create p ∧
  Nage.onRelease p' = Nage.onRelease p ∧ Nage.onReserve p' = Nage.onReserve p ∧
  Nage.initialSize p' = Nage.initialSize p ∧
  ∀ e, nage_owns p e → nage_owns p' e.

(** The operations a caller can perform on a constructed pool, and one
    step of the pool under any of them (whatever its completion). *)
Inductive pool_op := PGenerate | PReserve | PRelease (e : value) | PClear.
Inductive nage_op := NGenerate | NReserve | NRelease (e : value) | NReset.

Definition pool_run (o : pool_op) : M (Pool.t * world U) unit :=
  match o with
  | PGenerate => let* _ := Pool.generate apply in ret tt
  | PReserve => let* _ := Pool.reserve apply in ret tt
  | PRelease e => Pool.release apply e
  | PClear => Pool.clear
  end.
Definition nage_run (o : nage_op) : M (Nage.t * world U) unit :=
  match o with
  | NGenerate => let* _ := Nage.generate apply in ret tt
  | NReserve => let* _ := Nage.reserve apply in ret tt
  | NRelease e => Nage.release apply e
  | NReset => Nage.reset apply
  end.

Definition pool_step (s s' : Pool.t * world U) : Prop := ∃ o, snd (pool_run o s) = s'.
Definition nage_step (s s' : Nage.t * world U) : Prop := ∃ o, snd (nage_run o s) = s'.

(** An option value that is set to something truthy which is not a
    function. *)
Definition invalid_hook (hook : value) : bool :=
  truthy hook && negb (is_function hook).

(** The object [this] of the [Nage] constructor once the options are
    validated and stored, before prepopulation: [tb] is the value of
    [timeBasis] read for the name. *)
Definition nage_unpopulated (tb rnd : Z) (o : Nage.Options) : Nage.t :=
  let stored hook := if truthy hook && is_function hook then hook else VUndefined in
  {| Nage.entries := ∅;
     Nage.initialSize := default 0 (Nage.opt_initialSize o);
     Nage.name := "nage_" +:+ pretty tb +:+ "_" +:+ pretty rnd;
     Nage.create := default_to (VRef RGetEmptyObject) (Nage.opt_create o);
     Nage.onRelease := stored (Nage.opt_onRelease o);
     Nage.onReserve := stored (Nage.opt_onReserve o);
     Nage.stack := [];
     Nage.frozen := false |}.

(** The free list is well formed: its entries are registered and none
    occurs twice. *)
Definition pool_wf (p : Pool.t) : Prop :=
  pool_stack_registered p ∧ NoDup (Pool.stack p).


(** The log entry of a call of the factory [c] that returned [e]. *)
Definition made (c e : value) : event := Call c [] (Normal e).


(** The options of the scenario: [{ initialSize: 2 }]. *)
Definition scenario_options : Nage.Options :=
  {| Nage.opt_create := VUndefined; Nage.opt_initialSize := Some 2;
     Nage.opt_onRelease := VUndefined; Nage.opt_onReserve := VUndefined |}.

End Vocabulary.

(** ** Vocabulary of the further properties *)

Section Accounting.
Context {U : Type}.

(** What a run from state [s] to state [s'] of a [Nage] pool has added: the
    module counter is as it was, the call log has only grown, and the
    registrations gained are exactly the objects the pool's factory
    returned in the calls logged meanwhile. *)
Definition nage_delta (s s' : Nage.t * world U) : Prop :=
  timeBasis (snd s') = timeBasis (snd s) ∧
  ∃ tr, calls (snd s') = calls (snd s) ++ tr ∧
        ∀ e, nage_owns (fst s') e ↔
             nage_owns (fst s) e ∨
             ((∃ r, e = VRef r) ∧ made (Nage.create (fst s)) e ∈ tr).

(** A [Pool] with the default factory and no hooks, on a heap whose next
    unused address lies above every object the pool has registered. *)
Definition pool_plain (s : Pool.t * world U) : Prop :=
  Pool.create (fst s) = VRef RGetEmptyObject ∧
  Pool.onRelease (fst s) = VUndefined ∧ Pool.onReserve (fst s) = VUndefined ∧
  pool_wf (fst s) ∧
  ∀ r, is_Some (Pool.entries (fst s) !! r) →
       ∃ l, r = RObj l ∧ (l < next_loc (hp (snd s)))%nat.

(** The name the constructors build from the counter and the random
    part. *)
Definition pool_name (prefix : string) (tb rnd : Z) : string :=
  prefix +:+ pretty tb +:+ "_" +:+ pretty rnd.
End Accounting.

(** ** Running examples *)

(** A world whose callbacks have no state of their own, and a table of user
    functions: function 0 throws, function 1 returns the object at address
    7 on every call, function 2 returns [undefined]. *)
Definition w0 : world unit := World (Heap 0%nat ()) 100 [].
Definition fns : behaviour unit :=
  λ f _ h, match f with
           | 0%nat => (Throws (VStr "boom"), h)
           | 1%nat => (Returns (VRef (RObj 7)), h)
           | _ => (Returns VUndefined, h)
           end.

(** The pool [new Pool()] builds in [w0] (development mode, random part 5),
    and the world it leaves. *)
Definition fresh_pool : Pool.t :=
  {| Pool.entries := ∅; Pool.name := "pool_100_5"; Pool.create := VRef RGetEmptyObject;
     Pool.onRelease := VUndefined; Pool.onReserve := VUndefined; Pool.stack := [];
     Pool.frozen := true |}.
Definition w1 : world unit := World (Heap 0%nat ()) 101 [].




(** The pool [new Nage({ initialSize: 2 })] builds in [w0] (development
    mode, random part 5), and the world it leaves. *)
Definition two_nage : Nage.t :=
  {| Nage.entries := {[ RObj 0 := "nage_100_5"; RObj 1 := "nage_100_5" ]};
     Nage.initialSize := 2; Nage.name := "nage_100_5";
     Nage.create := VRef RGetEmptyObject; Nage.onRelease := VUndefined;
     Nage.onReserve := VUndefined; Nage.stack := [VRef (RObj 0); VRef (RObj 1)];
     Nage.frozen := true |}.
Definition two_world : world unit :=
  World (Heap 2%nat ()) 101
    [made (VRef RGetEmptyObject) (VRef (RObj 0)); made (VRef RGetEmptyObject) (VRef (RObj 1))].

Example pool_fresh_size :
  (let* p := Pool.constructor true 5 Pool.EMPTY_OBJECT in ret (Pool.size p, Pool.name p)) w0
  = (Normal (0, "pool_100_5"), World (Heap 0%nat ()) 101 []).
Proof. reflexivity. Qed.

Example nage_prepopulated :
  fst (Nage.constructor fns true 5
         {| Nage.opt_create := VUndefined; Nage.opt_initialSize := Some 2;
            Nage.opt_onRelease := VUndefined; Nage.opt_onReserve := VUndefined |} w0)
  = Normal {| Nage.entries := {[ RObj 0 := "nage_100_5"; RObj 1 := "nage_100_5" ]};
              Nage.initialSize := 2; Nage.name := "nage_100_5";
              Nage.create := VRef RGetEmptyObject; Nage.onRelease := VUndefined;
              Nage.onReserve := VUndefined; Nage.stack := [VRef (RObj 0); VRef (RObj 1)];
              Nage.frozen := true |}.
Proof. vm_compute. reflexivity. Qed.

(** ** Values, arrays and the registry *)

Lemma strict_eq_true a b : strict_eq a b = true → a = b.
Proof. destruct a, b; simpl; try done; by intros ?%bool_decide_eq_true. Qed.

Lemma strict_eq_str v s : strict_eq v (VStr s) = true ↔ v = VStr s.
Proof.
  split; [apply strict_eq_true|intros ->]. simpl. by apply bool_decide_eq_true.
Qed.

Lemma strict_eq_ref v r : strict_eq v (VRef r) = true ↔ v = VRef r.
Proof.
  split; [apply strict_eq_true|intros ->]. simpl. by apply bool_decide_eq_true.
Qed.

Lemma weakmap_get_str m e n :
  weakmap_get m e = VStr n ↔ ∃ r, e = VRef r ∧ m !! r = Some n.
Proof.
  split.
  - destruct e as [| | | | | |r]; simpl; try done.
    destruct (m !! r) eqn:E; [|done]. intros [= ->]. eauto.
  - intros (r & -> & E). simpl. by rewrite E.
Qed.

(** For an object, [indexOf] answers -1 exactly when it is not in the array. *)
Lemma indexOf_from_ref i l r :
  0 ≤ i → indexOf_from i l (VRef r) = -1 ↔ VRef r ∉ l.
Proof.
  revert i. induction l as [|y l IH]; intros i Hi; simpl.
  - split; [intros _; apply not_elem_of_nil|done].
  - rewrite not_elem_of_cons. destruct (strict_eq y (VRef r)) eqn:E.
    + apply strict_eq_ref in E. split; [lia|]. by intros [? _].
    + rewrite IH by lia. split; [|tauto]. intros ?. split; [|done].
      intros <-. rewrite (proj2 (strict_eq_ref (VRef r) r)) in E; done.
Qed.

Lemma indexOf_ref l r : indexOf l (VRef r) = -1 ↔ VRef r ∉ l.
Proof. by apply indexOf_from_ref. Qed.

Lemma last_push (x : value) l : last (push x l) = Some x.
Proof. apply last_snoc. Qed.

Lemma removelast_push (x : value) l : removelast (push x l) = l.
Proof. apply removelast_last. Qed.


(** ** Calls of user functions *)

Section Calls.
Context {U : Type} (apply : behaviour U).

(** A call never raises one of the pool's own [Error]s. *)
Lemma invoke_not_Error f a (w w' : world U) x msg :
  invoke apply f a w = (Throw x, w') → x ≠ Error msg.
Proof.
  unfold invoke. destruct f as [| | | | | |[]]; try (by intros [= <- _]).
  destruct (apply _ _ _) as [[] ?]; simpl; [done|by intros [= <- _]].
Qed.

(** A call leaves the module counter alone and logs at most itself. *)
Lemma invoke_world f a (w w' : world U) r :
  invoke apply f a w = (r, w') →
  timeBasis w' = timeBasis w ∧ (calls w' = calls w ∨ calls w' = calls w ++ [Call f a r]).
Proof.
  unfold invoke. destruct f as [| | | | | |[]]; try (intros [= <- <-]; by auto).
  destruct (apply _ _ _) as [o h]. intros [= <- <-]. simpl. auto.
Qed.

Lemma invoke_getEmptyObject a (w : world U) :
  invoke apply (VRef RGetEmptyObject) a w =
  (Normal (VRef (RObj (next_loc (hp w)))),
   World (Heap (S (next_loc (hp w))) (user (hp w))) (timeBasis w)
     (calls w ++ [Call (VRef RGetEmptyObject) a (Normal (VRef (RObj (next_loc (hp w)))))])).
Proof. reflexivity. Qed.
End Calls.

(** ** [Pool]: the methods, case by case *)

Section PoolMethods.
Context {U : Type} (apply : behaviour U).
Implicit Types (p : Pool.t) (w : world U) (e : value).

Lemma pool_run_hook_eq hook e p w :
  Pool.run_hook apply hook e (p, w) =
  if truthy hook then
    match invoke apply hook [e] w with
    | (Normal _, w') => (Normal tt, (p, w'))
    | (Throw x, w') => (Throw x, (p, w'))
    end
  else (Normal tt, (p, w)).
Proof.
  unfold Pool.run_hook, when, bind, liftW, ret.
  destruct (truthy hook); [|done]. by destruct (invoke _ _ _ _) as [[] ?].
Qed.

Lemma pool_release_eq e p w :
  Pool.release apply e (p, w) =
  if negb (strict_eq (weakmap_get (Pool.entries p) e) (VStr (Pool.name p)))
  then (Throw OwnershipError, (p, w))
  else if indexOf (Pool.stack p) e =? -1 then
    match Pool.run_hook apply (Pool.onRelease p) e (p, w) with
    | (Normal _, (p', w')) => (Normal tt, (Pool.set_stack (push e (Pool.stack p')) p', w'))
    | (Throw x, s') => (Throw x, s')
    end
  else (Normal tt, (p, w)).
Proof.
  unfold Pool.release, bind, get_this, when, throw, ret, modify_this.
  destruct (negb _); [done|]. destruct (_ =? _); [|done].
  by destruct (Pool.run_hook _ _ _ _) as [[] []].
Qed.

Lemma pool_generate_eq p w :
  Pool.generate apply (p, w) =
  match invoke apply (Pool.create p) [] w with
  | (Normal (VRef r), w') =>
      (Normal (VRef r), (Pool.set_entries (<[r := Pool.name p]> (Pool.entries p)) p, w'))
  | (Normal _, w') => (Throw (TypeError "Invalid value used as weak map key"), (p, w'))
  | (Throw x, w') => (Throw x, (p, w'))
  end.
Proof.
  unfold Pool.generate, bind, get_this, liftW, Pool.entries_set, ret.
  destruct (invoke _ _ _ _) as [[v|x] w']; [|done]. by destruct v.
Qed.

Lemma pool_reserve_eq p w :
  Pool.reserve apply (p, w) =
  match
    match Pool.stack p with
    | [] => Pool.generate apply (p, w)
    | _ => Pool.stack_pop (p, w)
    end
  with
  | (Normal x, (p', w')) =>
      match Pool.run_hook apply (Pool.onReserve p) x (p', w') with
      | (Normal _, s') => (Normal x, s')
      | (Throw y, s') => (Throw y, s')
      end
  | (Throw y, s') => (Throw y, s')
  end.
Proof.
  unfold Pool.reserve, bind, get_this, ret.
  assert (negb (array_length (Pool.stack p) =? 0) =
          match Pool.stack p with [] => false | _ => true end) as ->.
  { by destruct (Pool.stack p). }
  destruct (Pool.stack p).
  - destruct (Pool.generate _ _) as [[] []]; [|done].
    by destruct (Pool.run_hook _ _ _ _) as [[] ?].
  - destruct (Pool.stack_pop _) as [[] []]; [|done].
    by destruct (Pool.run_hook _ _ _ _) as [[] ?].
Qed.

End PoolMethods.

(** ** [Pool]: what every method leaves in place *)

Section PoolFrame.
Context {U : Type} (apply : behaviour U).
Implicit Types (p : Pool.t) (w : world U) (e : value).

Lemma pool_extends_refl p : pool_extends p p.
Proof. by repeat split. Qed.

Lemma pool_extends_trans p1 p2 p3 :
  pool_extends p1 p2 → pool_extends p2 p3 → pool_extends p1 p3.
Proof.
  intros (?&?&?&?&?) (?&?&?&?&?). repeat split; try congruence. auto.
Qed.

Lemma pool_extends_set_stack p l : pool_extends p (Pool.set_stack l p).
Proof. by repeat split. Qed.

Lemma pool_owns_insert p r e :
  pool_owns p e →
  pool_owns (Pool.set_entries (<[r := Pool.name p]> (Pool.entries p)) p) e.
Proof.
  unfold pool_owns. rewrite !weakmap_get_str. intros (r' & -> & E).
  exists r'. split; [done|]. simpl. destruct (decide (r = r')) as [->|].
  - by rewrite lookup_insert_eq.
  - by rewrite lookup_insert_ne.
Qed.

Lemma pool_run_hook_this hook e p w r p' w' :
  Pool.run_hook apply hook e (p, w) = (r, (p', w')) → p' = p.
Proof.
  rewrite pool_run_hook_eq. destruct (truthy hook); [|by intros [= _ <- _]].
  destruct (invoke _ _ _ _) as [[] ?]; by intros [= _ <- _].
Qed.

Lemma pool_generate_extends p w r p' w' :
  Pool.generate apply (p, w) = (r, (p', w')) → pool_extends p p'.
Proof.
  rewrite pool_generate_eq.
  destruct (invoke _ _ _ _) as [[v|x] w1]; [destruct v as [| | | | | |l]|];
    intros [= _ <- _]; try apply pool_extends_refl.
  repeat split. apply pool_owns_insert.
Qed.

Lemma pool_release_extends e p w r p' w' :
  Pool.release apply e (p, w) = (r, (p', w')) → pool_extends p p'.
Proof.
  rewrite pool_release_eq. destruct (negb _).
  { intros [= _ <- _]. apply pool_extends_refl. }
  destruct (_ =? _); [|intros [= _ <- _]; apply pool_extends_refl].
  destruct (Pool.run_hook _ _ _ _) as [[] [p1 w1]] eqn:E;
    apply pool_run_hook_this in E as ->; intros [= _ <- _];
    [apply pool_extends_set_stack|apply pool_extends_refl].
Qed.

Lemma pool_stack_pop_extends p w r p' w' :
  Pool.stack_pop (p, w) = (r, (p', w')) → pool_extends p p'.
Proof.
  unfold Pool.stack_pop. destruct (last _); intros [= _ <- _];
    [apply pool_extends_set_stack|apply pool_extends_refl].
Qed.

Lemma pool_reserve_extends p w r p' w' :
  Pool.reserve apply (p, w) = (r, (p', w')) → pool_extends p p'.
Proof.
  rewrite pool_reserve_eq.
  set (first := match Pool.stack p with [] => _ | _ => _ end).
  assert (∀ r1 p1 w1, first = (r1, (p1, w1)) → pool_extends p p1) as Hfirst.
  { subst first. destruct (Pool.stack p); intros ???;
      [apply pool_generate_extends|apply pool_stack_pop_extends]. }
  destruct first as [[x|y] [p1 w1]].
  - specialize (Hfirst _ _ _ eq_refl).
    destruct (Pool.run_hook _ _ _ _) as [[] [p2 w2]] eqn:E;
      apply pool_run_hook_this in E as ->; by intros [= _ <- _].
  - specialize (Hfirst _ _ _ eq_refl). by intros [= _ <- _].
Qed.

Lemma pool_step_extends (s s' : Pool.t * world U) :
  pool_step apply s s' → pool_extends (fst s) (fst s').
Proof.
  destruct s as [p w], s' as [p' w']. intros [[| |e|] Hrun]; simpl in *.
  - unfold bind in Hrun. destruct (Pool.generate _ _) as [[] [p1 w1]] eqn:E;
      simpl in Hrun; injection Hrun as <- <-; by eapply pool_generate_extends.
  - unfold bind in Hrun. destruct (Pool.reserve _ _) as [[] [p1 w1]] eqn:E;
      simpl in Hrun; injection Hrun as <- <-; by eapply pool_reserve_extends.
  - destruct (Pool.release _ _ _) as [r [p1 w1]] eqn:E.
    simpl in Hrun; injection Hrun as <- <-. by eapply pool_release_extends.
  - injection Hrun as <- <-. apply pool_extends_set_stack.
Qed.

Lemma pool_steps_extends (s s' : Pool.t * world U) :
  rtc (pool_step apply) s s' → pool_extends (fst s) (fst s').
Proof.
  induction 1 as [|s1 s2 s3 H12 _ IH]; [apply pool_extends_refl|].
  eapply pool_extends_trans; [by apply pool_step_extends|done].
Qed.
End PoolFrame.

(** ** [Pool.release]: the ownership check *)

Section PoolOwnership.
Context {U : Type} (apply : behaviour U).
Implicit Types (p : Pool.t) (w : world U) (e : value).

Lemma pool_owns_strict_eq p e :
  strict_eq (weakmap_get (Pool.entries p) e) (VStr (Pool.name p)) = true ↔ pool_owns p e.
Proof. apply strict_eq_str. Qed.





End PoolOwnership.

(** ** [Pool]: the constructor in closed form *)

Section PoolConstructor.
Context {U : Type}.
Implicit Types (w : world U).

Lemma pool_constructor_eq DEV rnd (o : Pool.Options) w :
  Pool.constructor DEV rnd o w =
  let w' := World (hp w) (timeBasis w + 1) (calls w) in
  let create := default_to (VRef RGetEmptyObject) (Pool.opt_create o) in
  let stored hook := if truthy hook && is_function hook then hook else VUndefined in
  let rejected hook := invalid_hook hook && DEV in
  if negb (is_function create) then (Throw (ConfigurationError "create"), w')
  else if rejected (Pool.opt_onRelease o) then (Throw (ConfigurationError "onRelease"), w')
  else if rejected (Pool.opt_onReserve o) then (Throw (ConfigurationError "onReserve"), w')
  else
    (Normal {| Pool.entries := ∅;
               Pool.name := "pool_" +:+ pretty (timeBasis w) +:+ "_" +:+ pretty rnd;
               Pool.create := create;
               Pool.onRelease := stored (Pool.opt_onRelease o);
               Pool.onReserve := stored (Pool.opt_onReserve o);
               Pool.stack := [];
               Pool.frozen := DEV |}, w').
Proof.
  unfold Pool.constructor, Pool.constructor_body, Pool.install_hook, invalid_hook.
  unfold bind, when, modify_this, liftW, timeBasis_postincr, throw, ret. simpl.
  destruct (is_function (default_to _ _)); simpl; [|done].
  destruct (truthy (Pool.opt_onRelease o)), (is_function (Pool.opt_onRelease o)),
    (truthy (Pool.opt_onReserve o)), (is_function (Pool.opt_onReserve o)), DEV;
    reflexivity.
Qed.

Lemma pool_constructor_fresh DEV rnd (o : Pool.Options) w p w' :
  Pool.constructor DEV rnd o w = (Normal p, w') →
  Pool.stack p = [] ∧ Pool.entries p = ∅.
Proof.
  rewrite pool_constructor_eq. cbv zeta.
  repeat (match goal with |- context [if ?c then _ else _] => destruct c end; try done);
    by intros [= <- _].
Qed.
End PoolConstructor.

(** ** [Pool]: release, reserve and the free list *)

Section PoolFreeList.
Context {U : Type} (apply : behaviour U).
Implicit Types (p : Pool.t) (w : world U) (e : value).


Lemma pool_owns_ref p e : pool_owns p e → ∃ r, e = VRef r.
Proof. intros (r & -> & _)%weakmap_get_str. eauto. Qed.




End PoolFreeList.

(** ** [Pool]: last in, first out *)

Section PoolLifo.
Context {U : Type} (apply : behaviour U).
Implicit Types (p : Pool.t) (w : world U) (e : value).


End PoolLifo.

(** ** [Pool]: the free list stays well formed *)

Section PoolInvariant.
Context {U : Type} (apply : behaviour U).
Implicit Types (p : Pool.t) (w : world U) (e : value).

Lemma pool_wf_extends p p' :
  pool_extends p p' → Pool.stack p' = Pool.stack p → pool_wf p → pool_wf p'.
Proof.
  intros (_&_&_&_&Hmono) Hs [Hreg Hnd]. split; [|by rewrite Hs].
  unfold pool_stack_registered in *. rewrite Hs.
  eapply Forall_impl; [done|]. auto.
Qed.

Lemma pool_wf_set_stack p l :
  Forall (pool_owns p) l → NoDup l → pool_wf (Pool.set_stack l p).
Proof. by split. Qed.

Lemma pool_generate_wf p w r p' w' :
  Pool.generate apply (p, w) = (r, (p', w')) → pool_wf p → pool_wf p'.
Proof.
  intros Hgen. apply pool_wf_extends; [by eapply pool_generate_extends|].
  revert Hgen. rewrite pool_generate_eq.
  destruct (invoke _ _ _ _) as [[v|] ?]; [destruct v|]; by intros [= _ <- _].
Qed.

Lemma pool_stack_pop_wf p w r p' w' :
  Pool.stack_pop (p, w) = (r, (p', w')) → pool_wf p → pool_wf p'.
Proof.
  unfold Pool.stack_pop. intros Hpop [Hreg Hnd]. unfold pool_stack_registered in Hreg.
  destruct (Pool.stack p) as [|x l _] eqn:Hs using rev_ind.
  { simpl in Hpop. injection Hpop as _ <- _. split; [|by rewrite Hs].
    unfold pool_stack_registered. by rewrite Hs. }
  change (l ++ [x]) with (push x l) in Hpop.
  rewrite last_push, removelast_push in Hpop. injection Hpop as _ <- _.
  apply Forall_app in Hreg as [Hreg _]. apply NoDup_app in Hnd as (Hnd & _ & _).
  by apply pool_wf_set_stack.
Qed.

Lemma pool_reserve_wf p w r p' w' :
  Pool.reserve apply (p, w) = (r, (p', w')) → pool_wf p → pool_wf p'.
Proof.
  rewrite pool_reserve_eq. intros Hres Hwf.
  set (first := match Pool.stack p with [] => _ | _ => _ end) in Hres.
  assert (∀ r1 p1 w1, first = (r1, (p1, w1)) → pool_wf p1) as Hfirst.
  { subst first. destruct (Pool.stack p); intros ??? E;
      [by eapply pool_generate_wf|by eapply pool_stack_pop_wf]. }
  destruct first as [[x|y] [p1 w1]]; specialize (Hfirst _ _ _ eq_refl).
  - destruct (Pool.run_hook _ _ _ _) as [[] [p2 w2]] eqn:E;
      apply pool_run_hook_this in E as ->; by injection Hres as _ <- _.
  - by injection Hres as _ <- _.
Qed.

Lemma pool_release_wf e p w r p' w' :
  Pool.release apply e (p, w) = (r, (p', w')) → pool_wf p → pool_wf p'.
Proof.
  rewrite pool_release_eq. intros Hrel Hwf.
  destruct (strict_eq _ _) eqn:Ho; [|by injection Hrel as _ <- _].
  apply pool_owns_strict_eq in Ho. simpl in Hrel.
  destruct (_ =? _) eqn:Ei; [|by injection Hrel as _ <- _].
  destruct (pool_owns_ref _ _ Ho) as [l ->]. apply Z.eqb_eq, indexOf_ref in Ei.
  destruct (Pool.run_hook _ _ _ _) as [[] [p1 w1]] eqn:E;
    apply pool_run_hook_this in E as ->; injection Hrel as _ <- _; [|done].
  destruct Hwf as [Hreg Hnd]. apply pool_wf_set_stack.
  - apply Forall_app. split; [done|]. by apply Forall_singleton.
  - apply NoDup_app. split; [done|]. split; [|apply NoDup_singleton].
    intros x Hx ->%list_elem_of_singleton. done.
Qed.

Lemma pool_step_wf (s s' : Pool.t * world U) :
  pool_step apply s s' → pool_wf (fst s) → pool_wf (fst s').
Proof.
  destruct s as [p w], s' as [p' w']. intros [[| |e|] Hrun]; simpl in *.
  - unfold bind in Hrun. destruct (Pool.generate _ _) as [[] [p1 w1]] eqn:E;
      simpl in Hrun; injection Hrun as <- <-; by eapply pool_generate_wf.
  - unfold bind in Hrun. destruct (Pool.reserve _ _) as [[] [p1 w1]] eqn:E;
      simpl in Hrun; injection Hrun as <- <-; by eapply pool_reserve_wf.
  - destruct (Pool.release _ _ _) as [r [p1 w1]] eqn:E.
    simpl in Hrun; injection Hrun as <- <-. by eapply pool_release_wf.
  - injection Hrun as <- <-. intros _. split; [apply Forall_nil_2|apply NoDup_nil_2].
Qed.

(** Every state a pool reaches from its construction is well formed. *)
Lemma pool_reachable_wf DEV rnd o (w0 w1 : world U) P s :
  Pool.constructor DEV rnd o w0 = (Normal P, w1) →
  rtc (pool_step apply) (P, w1) s → pool_wf (fst s).
Proof.
  intros [Hs _]%pool_constructor_fresh Hsteps.
  assert (pool_wf (fst (P, w1))) as Hwf.
  { split; [unfold pool_stack_registered|]; simpl; rewrite Hs;
      [apply Forall_nil_2|apply NoDup_nil_2]. }
  revert Hwf. induction Hsteps as [|s1 s2 s3 H12 _ IH]; [done|].
  intros Hwf. apply IH. by eapply pool_step_wf.
Qed.
End PoolInvariant.

(** ** [Pool]: reserve then release *)

Section PoolRoundTrip.
Context {U : Type} (apply : behaviour U).
Implicit Types (p : Pool.t) (w : world U) (e : value).

End PoolRoundTrip.






(** ** [Pool]: validation of the options *)

Section PoolValidation.
Context {U : Type} (apply : behaviour U).
Implicit Types (p : Pool.t) (w : world U) (e : value).

(** C8, as amended.  A [create] option that is set and is not a function
    makes the constructor throw in every build mode.  Otherwise, a hook
    option that is truthy and not a function makes the constructor throw in
    development mode ([onRelease] is checked before [onReserve]); in
    production mode the constructor returns a pool that has not stored
    that hook, and whose hook step therefore calls nothing, in every state
    the pool reaches. *)
Theorem pool_constructor_validation DEV rnd (o : Pool.Options) w :
  let w' := World (hp w) (timeBasis w + 1) (calls w) in
  let create := default_to (VRef RGetEmptyObject) (Pool.opt_create o) in
  (is_function create = false →
     Pool.constructor DEV rnd o w = (Throw (ConfigurationError "create"), w'))
  ∧ (is_function create = true →
     (DEV = true → invalid_hook (Pool.opt_onRelease o) = true →
        Pool.constructor DEV rnd o w = (Throw (ConfigurationError "onRelease"), w'))
     ∧ (DEV = true → invalid_hook (Pool.opt_onRelease o) = false →
        invalid_hook (Pool.opt_onReserve o) = true →
        Pool.constructor DEV rnd o w = (Throw (ConfigurationError "onReserve"), w'))
     ∧ (DEV = false →
        ∃ p, Pool.constructor DEV rnd o w = (Normal p, w') ∧
          (invalid_hook (Pool.opt_onRelease o) = true →
             ∀ s e, rtc (pool_step apply) (p, w') s →
               Pool.onRelease (fst s) = VUndefined ∧
               Pool.run_hook apply (Pool.onRelease (fst s)) e s = (Normal tt, s)) ∧
          (invalid_hook (Pool.opt_onReserve o) = true →
             ∀ s e, rtc (pool_step apply) (p, w') s →
               Pool.onReserve (fst s) = VUndefined ∧
               Pool.run_hook apply (Pool.onReserve (fst s)) e s = (Normal tt, s)))).
Proof.
  intros w' create.
  split; [|intros Hc; split; [|split]].
  - intros Hc. rewrite pool_constructor_eq. cbv zeta. fold create. by rewrite Hc.
  - intros -> Hrel. rewrite pool_constructor_eq. cbv zeta. fold create.
    rewrite Hc, Hrel. done.
  - intros -> Hrel Hres. rewrite pool_constructor_eq. cbv zeta. fold create.
    rewrite Hc, Hrel, Hres. done.
  - intros ->. rewrite pool_constructor_eq. cbv zeta. fold create.
    rewrite Hc, !andb_false_r. simpl. eexists. split; [done|].
    split; intros Hbad [p1 w1] e (_&_&Hrel&Hres&_)%pool_steps_extends;
      simpl in *; unfold invalid_hook in Hbad;
      apply andb_true_iff in Hbad as [Ht Hf%negb_true_iff].
    + rewrite Ht, Hf in Hrel. by rewrite Hrel.
    + rewrite Ht, Hf in Hres. by rewrite Hres.
Qed.
End PoolValidation.

(** C8 as stated fails for a hook option that is set to a falsy value: with
    [onRelease: 0] the constructor returns a pool even in development mode. *)
Lemma pool_constructor_validation_counterexample :
  let o := {| Pool.opt_create := VUndefined; Pool.opt_onRelease := VNum 0;
              Pool.opt_onReserve := VUndefined |} in
  Pool.opt_onRelease o ≠ VUndefined
  ∧ is_function (Pool.opt_onRelease o) = false
  ∧ Pool.constructor true 5 o w0 = (Normal fresh_pool, w1).
Proof. by repeat split. Qed.

Lemma pool_constructor_validation_witness :
  let o := {| Pool.opt_create := VUndefined; Pool.opt_onRelease := VNum 1;
              Pool.opt_onReserve := VUndefined |} in
  Pool.constructor true 5 o w0 = (Throw (ConfigurationError "onRelease"), w1)
  ∧ ∃ p, Pool.constructor false 5 o w0 = (Normal p, w1) ∧ Pool.onRelease p = VUndefined.
Proof.
  intros o. split.
  - exact (proj1 (proj2 (pool_constructor_validation fns true 5 o w0) eq_refl)
             eq_refl eq_refl).
  - destruct (proj2 (proj2 (proj2 (pool_constructor_validation fns false 5 o w0) eq_refl))
                eq_refl) as (p & Hp & Hrel & _).
    exists p. split; [exact Hp|].
    exact (proj1 (Hrel eq_refl (p, w1) VNull (rtc_refl _ _))).
Defined.

(** ** [Nage]: the methods, case by case *)

Section NageMethods.
Context {U : Type} (apply : behaviour U).
Implicit Types (p : Nage.t) (w : world U) (e : value).

Lemma nage_run_hook_eq hook e p w :
  Nage.run_hook apply hook e (p, w) =
  if truthy hook then
    match invoke apply hook [e] w with
    | (Normal _, w') => (Normal tt, (p, w'))
    | (Throw x, w') => (Throw x, (p, w'))
    end
  else (Normal tt, (p, w)).
Proof.
  unfold Nage.run_hook, when, bind, liftW, ret.
  destruct (truthy hook); [|done]. by destruct (invoke _ _ _ _) as [[] ?].
Qed.

Lemma nage_run_hook_this hook e p w r p' w' :
  Nage.run_hook apply hook e (p, w) = (r, (p', w')) → p' = p.
Proof.
  rewrite nage_run_hook_eq. destruct (truthy hook); [|by intros [= _ <- _]].
  destruct (invoke _ _ _ _) as [[] ?]; by intros [= _ <- _].
Qed.

Lemma nage_release_eq e p w :
  Nage.release apply e (p, w) =
  if negb (strict_eq (weakmap_get (Nage.entries p) e) (VStr (Nage.name p)))
  then (Throw OwnershipError, (p, w))
  else if indexOf (Nage.stack p) e =? -1 then
    match Nage.run_hook apply (Nage.onRelease p) e (p, w) with
    | (Normal _, (p', w')) => (Normal tt, (Nage.set_stack (push e (Nage.stack p')) p', w'))
    | (Throw x, s') => (Throw x, s')
    end
  else (Normal tt, (p, w)).
Proof.
  unfold Nage.release, bind, get_this, when, throw, ret, modify_this.
  destruct (negb _); [done|]. destruct (_ =? _); [|done].
  by destruct (Nage.run_hook _ _ _ _) as [[] []].
Qed.

Lemma nage_generate_eq p w :
  Nage.generate apply (p, w) =
  match invoke apply (Nage.create p) [] w with
  | (Normal (VRef r), w') =>
      (Normal (VRef r), (Nage.set_entries (<[r := Nage.name p]> (Nage.entries p)) p, w'))
  | (Normal _, w') => (Throw (TypeError "Invalid value used as weak map key"), (p, w'))
  | (Throw x, w') => (Throw x, (p, w'))
  end.
Proof.
  unfold Nage.generate, bind, get_this, liftW, Nage.entries_set, ret.
  destruct (invoke _ _ _ _) as [[v|x] w']; [|done]. by destruct v.
Qed.

Lemma nage_reserve_eq p w :
  Nage.reserve apply (p, w) =
  match
    match Nage.stack p with
    | [] => Nage.generate apply (p, w)
    | _ => Nage.stack_pop (p, w)
    end
  with
  | (Normal x, (p', w')) =>
      match Nage.run_hook apply (Nage.onReserve p) x (p', w') with
      | (Normal _, s') => (Normal x, s')
      | (Throw y, s') => (Throw y, s')
      end
  | (Throw y, s') => (Throw y, s')
  end.
Proof.
  unfold Nage.reserve, bind, get_this, ret.
  assert (negb (array_length (Nage.stack p) =? 0) =
          match Nage.stack p with [] => false | _ => true end) as ->.
  { by destruct (Nage.stack p). }
  destruct (Nage.stack p).
  - destruct (Nage.generate _ _) as [[] []]; [|done].
    by destruct (Nage.run_hook _ _ _ _) as [[] ?].
  - destruct (Nage.stack_pop _) as [[] []]; [|done].
    by destruct (Nage.run_hook _ _ _ _) as [[] ?].
Qed.

Lemma nage_stack_pop_push p w x l :
  Nage.stack p = push x l →
  Nage.stack_pop (p, w) = (Normal x, (Nage.set_stack l p, w)).
Proof.
  intros E. unfold Nage.stack_pop. by rewrite E, last_push, removelast_push.
Qed.

(** One turn of the prepopulation loop: [this.stack.push(this.generate())]. *)
Lemma nage_generate_push_eq p w :
  Nage.generate_push apply (p, w) =
  match Nage.generate apply (p, w) with
  | (Normal entry, (p', w')) =>
      (Normal tt, (Nage.set_stack (push entry (Nage.stack p')) p', w'))
  | (Throw x, s') => (Throw x, s')
  end.
Proof.
  unfold Nage.generate_push, bind, modify_this.
  by destruct (Nage.generate _ _) as [[] []].
Qed.

Lemma nage_reset_eq p w :
  Nage.reset apply (p, w) =
  Nage.populate apply (Nage.initialSize p) (Nage.set_stack [] p, w).
Proof. reflexivity. Qed.
End NageMethods.

(** ** Loops *)


(** ** [Nage]: what every method leaves in place *)

Section NageFrame.
Context {U : Type} (apply : behaviour U).
Implicit Types (p : Nage.t) (w : world U) (e : value).

Lemma nage_populate_eq n s :
  Nage.populate apply n s = for_each (seqZ 0 n) (λ _, Nage.generate_push apply) s.
Proof.
  unfold Nage.populate, when. destruct (n =? 0) eqn:E; [|done].
  by apply Z.eqb_eq in E as ->.
Qed.

Lemma nage_extends_refl p : nage_extends p p.
Proof. by repeat split. Qed.

Lemma nage_extends_trans p1 p2 p3 :
  nage_extends p1 p2 → nage_extends p2 p3 → nage_extends p1 p3.
Proof.
  intros (?&?&?&?&?&?) (?&?&?&?&?&?). repeat split; try congruence. auto.
Qed.

Lemma nage_extends_set_stack p l : nage_extends p (Nage.set_stack l p).
Proof. by repeat split. Qed.

Lemma nage_owns_strict_eq p e :
  strict_eq (weakmap_get (Nage.entries p) e) (VStr (Nage.name p)) = true ↔ nage_owns p e.
Proof. apply strict_eq_str. Qed.

Lemma nage_owns_ref p e : nage_owns p e → ∃ r, e = VRef r.
Proof. intros (r & -> & _)%weakmap_get_str. eauto. Qed.

Lemma nage_owns_insert p r e :
  nage_owns p e →
  nage_owns (Nage.set_entries (<[r := Nage.name p]> (Nage.entries p)) p) e.
Proof.
  unfold nage_owns. rewrite !weakmap_get_str. intros (r' & -> & E).
  exists r'. split; [done|]. simpl. destruct (decide (r = r')) as [->|].
  - by rewrite lookup_insert_eq.
  - by rewrite lookup_insert_ne.
Qed.

(** What [generate] does to the pool: nothing when it throws; when it
    returns, the entry is registered and the free list is as before. *)
Lemma nage_generate_inv p w r p' w' :
  Nage.generate apply (p, w) = (r, (p', w')) →
  nage_extends p p' ∧ Nage.stack p' = Nage.stack p ∧
  match r with
  | Normal e => nage_owns p' e ∧ calls w' = calls w ++ [Call (Nage.create p) [] (Normal e)]
  | Throw _ => p' = p
  end.
Proof.
  rewrite nage_generate_eq.
  destruct (invoke _ _ _ _) as [[v|x] w1] eqn:Hcall;
    [destruct v as [| | | | | |l]|]; intros [= <- <- <-];
    try (split; [apply nage_extends_refl|done]).
  split; [|split; [done|split]].
  - repeat split. apply nage_owns_insert.
  - apply weakmap_get_str. exists l. split; [done|]. simpl. apply lookup_insert_eq.
  - revert Hcall. unfold invoke.
    destruct (Nage.create p) as [| | | | | |[]]; try done.
    + destruct (apply _ _ _) as [[] ?]; simpl; [|done]. by intros [= <- <-].
    + simpl. by intros [= <- <-].
Qed.

Lemma nage_generate_extends p w r p' w' :
  Nage.generate apply (p, w) = (r, (p', w')) → nage_extends p p'.
Proof. by intros (? & _)%nage_generate_inv. Qed.

Lemma nage_generate_push_extends p w r p' w' :
  Nage.generate_push apply (p, w) = (r, (p', w')) → nage_extends p p'.
Proof.
  rewrite nage_generate_push_eq.
  destruct (Nage.generate _ _) as [[] [p1 w1]] eqn:E;
    apply nage_generate_extends in E; intros [= _ <- _]; [|done].
  eapply nage_extends_trans; [done|apply nage_extends_set_stack].
Qed.

Lemma nage_loop_extends (l : list Z) p w r p' w' :
  for_each l (λ _, Nage.generate_push apply) (p, w) = (r, (p', w')) → nage_extends p p'.
Proof.
  revert p w. induction l as [|i l IH]; intros p w; simpl.
  { intros [= _ <- _]. apply nage_extends_refl. }
  unfold bind at 1.
  destruct (Nage.generate_push apply (p, w)) as [[] [p1 w1]] eqn:E;
    apply nage_generate_push_extends in E.
  - intros H. eapply nage_extends_trans; [done|by eapply IH].
  - by intros [= _ <- _].
Qed.

Lemma nage_reset_extends p w r p' w' :
  Nage.reset apply (p, w) = (r, (p', w')) → nage_extends p p'.
Proof.
  rewrite nage_reset_eq, nage_populate_eq. intros H%nage_loop_extends.
  eapply nage_extends_trans; [apply nage_extends_set_stack|done].
Qed.
End NageFrame.

(** ** [Nage]: the constructor in closed form *)

Section NageConstructor.
Context {U : Type} (apply : behaviour U).
Implicit Types (p : Nage.t) (w : world U) (e : value).

Lemma nage_constructor_eq DEV rnd (o : Nage.Options) w :
  Nage.constructor apply DEV rnd o w =
  let w' := World (hp w) (timeBasis w + 1) (calls w) in
  let create := default_to (VRef RGetEmptyObject) (Nage.opt_create o) in
  let rejected hook := invalid_hook hook && DEV in
  if negb (is_function create) then (Throw (ConfigurationError "create"), w')
  else if rejected (Nage.opt_onRelease o) then (Throw (ConfigurationError "onRelease"), w')
  else if rejected (Nage.opt_onReserve o) then (Throw (ConfigurationError "onReserve"), w')
  else
    match Nage.populate apply (default 0 (Nage.opt_initialSize o))
            (nage_unpopulated (timeBasis w) rnd o, w') with
    | (Normal _, (p, w'')) => (Normal (if DEV then Nage.freeze p else p), w'')
    | (Throw x, (_, w'')) => (Throw x, w'')
    end.
Proof.
  unfold Nage.constructor, Nage.constructor_body, Nage.install_hook, invalid_hook.
  unfold nage_unpopulated.
  unfold bind at 1 2 3 4 5 6 7 8 9.
  unfold when at 1 2 3 4 5, modify_this at 1 2 3 4 5 6 7,
    liftW, timeBasis_postincr, throw, ret. simpl.
  destruct (is_function (default_to _ _)); simpl; [|done].
  destruct (truthy (Nage.opt_onRelease o)), (is_function (Nage.opt_onRelease o)),
    (truthy (Nage.opt_onReserve o)), (is_function (Nage.opt_onReserve o)), DEV;
    simpl; try reflexivity.
  all: unfold bind, when, modify_this, ret;
    by destruct (Nage.populate _ _ _) as [[] []].
Qed.
End NageConstructor.

(** ** [Nage]: every free entry is registered *)

Section NageInvariant.
Context {U : Type} (apply : behaviour U).
Implicit Types (p : Nage.t) (w : world U) (e : value).

Lemma nage_registered_extends p p' :
  nage_extends p p' → Nage.stack p' = Nage.stack p →
  nage_stack_registered p → nage_stack_registered p'.
Proof.
  intros (_&_&_&_&_&Hmono) Hs Hreg. unfold nage_stack_registered in *.
  rewrite Hs. eapply Forall_impl; [done|]. auto.
Qed.

Lemma nage_registered_push p e :
  nage_stack_registered p → nage_owns p e →
  nage_stack_registered (Nage.set_stack (push e (Nage.stack p)) p).
Proof.
  intros Hreg Ho. unfold nage_stack_registered. simpl.
  apply Forall_app. split; [done|]. by apply Forall_singleton.
Qed.

Lemma nage_registered_clear p : nage_stack_registered (Nage.set_stack [] p).
Proof. apply Forall_nil_2. Qed.

Lemma nage_generate_registered p w r p' w' :
  Nage.generate apply (p, w) = (r, (p', w')) →
  nage_stack_registered p → nage_stack_registered p'.
Proof.
  intros (Hext & Hs & _)%nage_generate_inv. by apply nage_registered_extends.
Qed.

Lemma nage_stack_pop_registered p w r p' w' :
  Nage.stack_pop (p, w) = (r, (p', w')) →
  nage_stack_registered p → nage_stack_registered p'.
Proof.
  unfold Nage.stack_pop, nage_stack_registered. intros Hpop Hreg.
  destruct (Nage.stack p) as [|x l _] eqn:Hs using rev_ind.
  { simpl in Hpop. injection Hpop as _ <- _. by rewrite Hs. }
  change (l ++ [x]) with (push x l) in Hpop.
  rewrite last_push, removelast_push in Hpop. injection Hpop as _ <- _.
  by apply Forall_app in Hreg as [Hreg _].
Qed.

Lemma nage_reserve_registered p w r p' w' :
  Nage.reserve apply (p, w) = (r, (p', w')) →
  nage_stack_registered p → nage_stack_registered p'.
Proof.
  rewrite nage_reserve_eq. intros Hres Hreg.
  set (first := match Nage.stack p with [] => _ | _ => _ end) in Hres.
  assert (∀ r1 p1 w1, first = (r1, (p1, w1)) → nage_stack_registered p1) as Hfirst.
  { subst first. destruct (Nage.stack p); intros ??? E;
      [by eapply nage_generate_registered|by eapply nage_stack_pop_registered]. }
  destruct first as [[x|y] [p1 w1]]; specialize (Hfirst _ _ _ eq_refl).
  - destruct (Nage.run_hook _ _ _ _) as [[] [p2 w2]] eqn:E;
      apply nage_run_hook_this in E as ->; by injection Hres as _ <- _.
  - by injection Hres as _ <- _.
Qed.

Lemma nage_release_registered e p w r p' w' :
  Nage.release apply e (p, w) = (r, (p', w')) →
  nage_stack_registered p → nage_stack_registered p'.
Proof.
  rewrite nage_release_eq. intros Hrel Hreg.
  destruct (strict_eq _ _) eqn:Ho; [|by injection Hrel as _ <- _].
  apply nage_owns_strict_eq in Ho. simpl in Hrel.
  destruct (_ =? _); [|by injection Hrel as _ <- _].
  destruct (Nage.run_hook _ _ _ _) as [[] [p1 w1]] eqn:E;
    apply nage_run_hook_this in E as ->; injection Hrel as _ <- _; [|done].
  by apply nage_registered_push.
Qed.

Lemma nage_loop_registered (l : list Z) p w r p' w' :
  for_each l (λ _, Nage.generate_push apply) (p, w) = (r, (p', w')) →
  nage_stack_registered p → nage_stack_registered p'.
Proof.
  revert p w. induction l as [|i l IH]; intros p w; simpl.
  { by intros [= _ <- _]. }
  unfold bind at 1. rewrite nage_generate_push_eq.
  destruct (Nage.generate _ _) as [[x|y] [p1 w1]] eqn:E.
  - intros Hloop Hreg. eapply IH; [done|].
    pose proof (nage_generate_registered _ _ _ _ _ E Hreg).
    apply nage_generate_inv in E as (_ & _ & Ho & _).
    by apply nage_registered_push.
  - intros [= _ <- _]. by eapply nage_generate_registered.
Qed.

Lemma nage_reset_registered p w r p' w' :
  Nage.reset apply (p, w) = (r, (p', w')) → nage_stack_registered p'.
Proof.
  rewrite nage_reset_eq, nage_populate_eq. intros H%nage_loop_registered; [done|].
  apply nage_registered_clear.
Qed.

Lemma nage_constructor_registered DEV rnd o w P w' :
  Nage.constructor apply DEV rnd o w = (Normal P, w') → nage_stack_registered P.
Proof.
  rewrite nage_constructor_eq. cbv zeta.
  destruct (negb _); [done|].
  destruct (invalid_hook (Nage.opt_onRelease o) && DEV); [done|].
  destruct (invalid_hook (Nage.opt_onReserve o) && DEV); [done|].
  rewrite nage_populate_eq.
  destruct (for_each _ _ _) as [[] [p1 w1]] eqn:E; [|done].
  apply nage_loop_registered in E; [|apply Forall_nil_2].
  intros [= <- _]. by destruct DEV.
Qed.

Lemma nage_step_registered (s s' : Nage.t * world U) :
  nage_step apply s s' →
  nage_stack_registered (fst s) → nage_stack_registered (fst s').
Proof.
  destruct s as [p w], s' as [p' w']. intros [[| |e|] Hrun]; simpl in *.
  - unfold bind in Hrun. destruct (Nage.generate _ _) as [[] [p1 w1]] eqn:E;
      simpl in Hrun; injection Hrun as <- <-; by eapply nage_generate_registered.
  - unfold bind in Hrun. destruct (Nage.reserve _ _) as [[] [p1 w1]] eqn:E;
      simpl in Hrun; injection Hrun as <- <-; by eapply nage_reserve_registered.
  - destruct (Nage.release _ _ _) as [r [p1 w1]] eqn:E.
    simpl in Hrun; injection Hrun as <- <-. by eapply nage_release_registered.
  - destruct (Nage.reset _ _) as [r [p1 w1]] eqn:E.
    simpl in Hrun; injection Hrun as <- <-. intros _. by eapply nage_reset_registered.
Qed.

(** C2.  Every entry in the free list is registered in the pool's registry
    under the pool's name: this holds of the pool the constructor returns
    (with or without prepopulation), it is preserved by [generate],
    [reserve], [release] and [reset] however they complete, and so it
    holds in every state the pool reaches.  The same holds in every state
    reached by a [Pool] of the earlier revision ([generate], [reserve],
    [release], [clear]). *)
Theorem nage_free_entries_registered :
  (∀ DEV rnd o (w w' : world U) P,
     Nage.constructor apply DEV rnd o w = (Normal P, w') → nage_stack_registered P)
  ∧ (∀ (op : nage_op) r (s s' : Nage.t * world U),
       nage_run apply op s = (r, s') →
       nage_stack_registered (fst s) → nage_stack_registered (fst s'))
  ∧ (∀ DEV rnd o (w w' : world U) P s,
       Nage.constructor apply DEV rnd o w = (Normal P, w') →
       rtc (nage_step apply) (P, w') s → nage_stack_registered (fst s))
  ∧ (∀ DEV rnd o (w w' : world U) P s,
       Pool.constructor DEV rnd o w = (Normal P, w') →
       rtc (pool_step apply) (P, w') s → pool_stack_registered (fst s)).
Proof.
  split; [|split; [|split]]; [| | |intros; by eapply pool_reachable_wf].
  - intros. by eapply nage_constructor_registered.
  - intros op r s s' Hrun. apply nage_step_registered. exists op. by rewrite Hrun.
  - intros DEV rnd o w w' P s Hnew%nage_constructor_registered Hsteps.
    change P with (fst (P, w')) in Hnew. revert Hnew.
    induction Hsteps as [|s1 s2 s3 H12 _ IH]; [done|].
    intros Hreg. apply IH. by eapply nage_step_registered.
Qed.
End NageInvariant.

(** ** [Nage]: prepopulation and [reset] *)

Section NagePopulate.
Context {U : Type} (apply : behaviour U).
Implicit Types (p : Nage.t) (w : world U) (e : value).

(** A prepopulation loop that ran to its end has made one factory call per
    turn and appended the entries returned, in call order. *)
Lemma nage_loop_returns (l : list Z) p w p' w' :
  for_each l (λ _, Nage.generate_push apply) (p, w) = (Normal tt, (p', w')) →
  ∃ es, length es = length l ∧ Nage.stack p' = Nage.stack p ++ es ∧
        calls w' = calls w ++ (made (Nage.create p) <$> es).
Proof.
  revert p w. induction l as [|i l IH]; intros p w; simpl.
  { intros [= <- <-]. exists []. by rewrite !app_nil_r. }
  unfold bind at 1. rewrite nage_generate_push_eq.
  destruct (Nage.generate _ _) as [[x|y] [p1 w1]] eqn:E; [|done].
  apply nage_generate_inv in E as ((_ & Hc & _) & Hs & _ & Hcalls).
  intros (es & Hlen & Hs' & Hcalls')%IH. simpl in *.
  exists (x :: es). split; [simpl; lia|]. split.
  - rewrite Hs', Hs. unfold push. by rewrite <-app_assoc.
  - rewrite Hcalls', Hcalls, Hc. by rewrite <-app_assoc.
Qed.


End NagePopulate.

Section NageReset.
Context {U : Type} (apply : behaviour U).
Implicit Types (p : Nage.t) (w : world U) (e : value).



End NageReset.

Section NageResetFailure.
Context {U : Type} (apply : behaviour U).
Implicit Types (p : Nage.t) (w : world U) (e : value).


End NageResetFailure.

(** ** Falsy hook options *)

Section FalsyHooks.
Context {U : Type} (apply : behaviour U).
Implicit Types (w : world U).

(** The prepopulation loop never throws one of the pool's own [Error]s. *)
Lemma nage_loop_not_Error (l : list Z) p w x s msg :
  for_each l (λ _, Nage.generate_push apply) (p, w) = (Throw x, s) → x ≠ Error msg.
Proof.
  revert p w. induction l as [|i l IH]; intros p w; simpl; [done|].
  unfold bind at 1. rewrite nage_generate_push_eq, nage_generate_eq.
  destruct (invoke _ _ _ _) as [[v|y] w1] eqn:E.
  - destruct v; try (by intros [= <- _]). apply IH.
  - intros [= <- _]. by eapply invoke_not_Error.
Qed.

Lemma pool_constructor_onRelease_falsy DEV rnd c r v w :
  truthy v = false →
  Pool.constructor DEV rnd
    {| Pool.opt_create := c; Pool.opt_onRelease := v; Pool.opt_onReserve := r |} w =
  Pool.constructor DEV rnd
    {| Pool.opt_create := c; Pool.opt_onRelease := VUndefined; Pool.opt_onReserve := r |} w.
Proof.
  intros Hv. rewrite !pool_constructor_eq. unfold invalid_hook. simpl. by rewrite Hv.
Qed.

Lemma pool_constructor_onReserve_falsy DEV rnd c r v w :
  truthy v = false →
  Pool.constructor DEV rnd
    {| Pool.opt_create := c; Pool.opt_onRelease := r; Pool.opt_onReserve := v |} w =
  Pool.constructor DEV rnd
    {| Pool.opt_create := c; Pool.opt_onRelease := r; Pool.opt_onReserve := VUndefined |} w.
Proof.
  intros Hv. rewrite !pool_constructor_eq. unfold invalid_hook. simpl. by rewrite Hv.
Qed.

Lemma nage_constructor_onRelease_falsy DEV rnd c n r v w :
  truthy v = false →
  Nage.constructor apply DEV rnd
    {| Nage.opt_create := c; Nage.opt_initialSize := n;
       Nage.opt_onRelease := v; Nage.opt_onReserve := r |} w =
  Nage.constructor apply DEV rnd
    {| Nage.opt_create := c; Nage.opt_initialSize := n;
       Nage.opt_onRelease := VUndefined; Nage.opt_onReserve := r |} w.
Proof.
  intros Hv. rewrite !nage_constructor_eq. unfold nage_unpopulated, invalid_hook.
  simpl. by rewrite Hv.
Qed.

Lemma nage_constructor_onReserve_falsy DEV rnd c n r v w :
  truthy v = false →
  Nage.constructor apply DEV rnd
    {| Nage.opt_create := c; Nage.opt_initialSize := n;
       Nage.opt_onRelease := r; Nage.opt_onReserve := v |} w =
  Nage.constructor apply DEV rnd
    {| Nage.opt_create := c; Nage.opt_initialSize := n;
       Nage.opt_onRelease := r; Nage.opt_onReserve := VUndefined |} w.
Proof.
  intros Hv. rewrite !nage_constructor_eq. unfold nage_unpopulated, invalid_hook.
  simpl. by rewrite Hv.
Qed.

(** With [onRelease] left out, no constructor raises the [onRelease]
    configuration error, and the pool it returns has no [onRelease] hook. *)
Lemma pool_constructor_onRelease_omitted DEV rnd c r w x w' :
  Pool.constructor DEV rnd
    {| Pool.opt_create := c; Pool.opt_onRelease := VUndefined; Pool.opt_onReserve := r |} w
  = (x, w') →
  x ≠ Throw (ConfigurationError "onRelease")
  ∧ ∀ P, x = Normal P → Pool.onRelease P = VUndefined.
Proof.
  rewrite pool_constructor_eq. simpl.
  destruct (negb _); [by intros [= <- _]|].
  destruct (invalid_hook r && DEV); intros [= <- _]; [done|].
  split; [done|]. by intros P [= <-].
Qed.

Lemma nage_constructor_onRelease_omitted DEV rnd c n r w x w' :
  Nage.constructor apply DEV rnd
    {| Nage.opt_create := c; Nage.opt_initialSize := n;
       Nage.opt_onRelease := VUndefined; Nage.opt_onReserve := r |} w
  = (x, w') →
  x ≠ Throw (ConfigurationError "onRelease")
  ∧ ∀ P, x = Normal P → Nage.onRelease P = VUndefined.
Proof.
  rewrite nage_constructor_eq. simpl.
  destruct (negb _); [by intros [= <- _]|].
  destruct (invalid_hook r && DEV); [by intros [= <- _]|].
  rewrite nage_populate_eq.
  destruct (for_each _ _ _) as [[[]|y] [p1 w1]] eqn:E; intros [= <- _].
  - split; [done|]. intros P [= <-].
    apply nage_loop_extends in E as (_ & _ & Hrel & _).
    destruct DEV; simpl; by rewrite Hrel.
  - split; [|done]. intros [= ->]. by eapply nage_loop_not_Error in E.
Qed.
End FalsyHooks.

Section FalsyHooksIgnored.
Context {U : Type} (apply : behaviour U).
Implicit Types (w : world U).

Lemma pool_constructor_onReserve_omitted DEV rnd c r w x w' :
  Pool.constructor DEV rnd
    {| Pool.opt_create := c; Pool.opt_onRelease := r; Pool.opt_onReserve := VUndefined |} w
  = (x, w') →
  x ≠ Throw (ConfigurationError "onReserve")
  ∧ ∀ P, x = Normal P → Pool.onReserve P = VUndefined.
Proof.
  rewrite pool_constructor_eq. simpl.
  destruct (negb _); [by intros [= <- _]|].
  destruct (invalid_hook r && DEV); intros [= <- _]; [done|].
  split; [done|]. by intros P [= <-].
Qed.

Lemma nage_constructor_onReserve_omitted DEV rnd c n r w x w' :
  Nage.constructor apply DEV rnd
    {| Nage.opt_create := c; Nage.opt_initialSize := n;
       Nage.opt_onRelease := r; Nage.opt_onReserve := VUndefined |} w
  = (x, w') →
  x ≠ Throw (ConfigurationError "onReserve")
  ∧ ∀ P, x = Normal P → Nage.onReserve P = VUndefined.
Proof.
  rewrite nage_constructor_eq. simpl.
  destruct (negb _); [by intros [= <- _]|].
  destruct (invalid_hook r && DEV); [by intros [= <- _]|].
  rewrite nage_populate_eq.
  destruct (for_each _ _ _) as [[[]|y] [p1 w1]] eqn:E; intros [= <- _].
  - split; [done|]. intros P [= <-].
    apply nage_loop_extends in E as (_ & _ & _ & Hres & _).
    destruct DEV; simpl; by rewrite Hres.
  - split; [|done]. intros [= ->]. by eapply nage_loop_not_Error in E.
Qed.

(** C9.  A hook option set to a falsy value (0, NaN, [false], the empty
    string, [null]) is treated by both constructors, in development mode as
    in production mode, exactly as if the option had been left out: same
    completion, same pool, same world.  In particular the constructor never
    raises the configuration error of that hook, and the pool it returns
    has not stored the value. *)
Theorem falsy_hook_ignored DEV rnd c n r v w :
  truthy v = false →
  let pool_opts rel res :=
    {| Pool.opt_create := c; Pool.opt_onRelease := rel; Pool.opt_onReserve := res |} in
  let nage_opts rel res :=
    {| Nage.opt_create := c; Nage.opt_initialSize := n;
       Nage.opt_onRelease := rel; Nage.opt_onReserve := res |} in
  (Pool.constructor DEV rnd (pool_opts v r) w
     = Pool.constructor DEV rnd (pool_opts VUndefined r) w
   ∧ Pool.constructor DEV rnd (pool_opts r v) w
     = Pool.constructor DEV rnd (pool_opts r VUndefined) w
   ∧ Nage.constructor apply DEV rnd (nage_opts v r) w
     = Nage.constructor apply DEV rnd (nage_opts VUndefined r) w
   ∧ Nage.constructor apply DEV rnd (nage_opts r v) w
     = Nage.constructor apply DEV rnd (nage_opts r VUndefined) w)
  ∧ (∀ x w', Pool.constructor DEV rnd (pool_opts v r) w = (x, w') →
       x ≠ Throw (ConfigurationError "onRelease")
       ∧ ∀ P, x = Normal P → Pool.onRelease P = VUndefined)
  ∧ (∀ x w', Pool.constructor DEV rnd (pool_opts r v) w = (x, w') →
       x ≠ Throw (ConfigurationError "onReserve")
       ∧ ∀ P, x = Normal P → Pool.onReserve P = VUndefined)
  ∧ (∀ x w', Nage.constructor apply DEV rnd (nage_opts v r) w = (x, w') →
       x ≠ Throw (ConfigurationError "onRelease")
       ∧ ∀ P, x = Normal P → Nage.onRelease P = VUndefined)
  ∧ (∀ x w', Nage.constructor apply DEV rnd (nage_opts r v) w = (x, w') →
       x ≠ Throw (ConfigurationError "onReserve")
       ∧ ∀ P, x = Normal P → Nage.onReserve P = VUndefined).
Proof.
  intros Hv pool_opts nage_opts. subst pool_opts nage_opts. cbv beta.
  pose proof (pool_constructor_onRelease_falsy DEV rnd c r v w Hv) as H1.
  pose proof (pool_constructor_onReserve_falsy DEV rnd c r v w Hv) as H2.
  pose proof (nage_constructor_onRelease_falsy apply DEV rnd c n r v w Hv) as H3.
  pose proof (nage_constructor_onReserve_falsy apply DEV rnd c n r v w Hv) as H4.
  split; [done|]. rewrite H1, H2, H3, H4.
  split; [|split; [|split]]; intros x w'.
  - apply pool_constructor_onRelease_omitted.
  - apply pool_constructor_onReserve_omitted.
  - apply nage_constructor_onRelease_omitted.
  - apply nage_constructor_onReserve_omitted.
Qed.
End FalsyHooksIgnored.

Lemma falsy_hook_ignored_witness :
  Pool.constructor (U := unit) true 5
    {| Pool.opt_create := VUndefined; Pool.opt_onRelease := VNum 0;
       Pool.opt_onReserve := VUndefined |} w0
  = Pool.constructor true 5 Pool.EMPTY_OBJECT w0
  ∧ Nage.constructor fns true 5
      {| Nage.opt_create := VUndefined; Nage.opt_initialSize := None;
         Nage.opt_onRelease := VNull; Nage.opt_onReserve := VUndefined |} w0
    = Nage.constructor fns true 5 Nage.EMPTY_OBJECT w0.
Proof.
  split.
  - exact (proj1 (proj1 (falsy_hook_ignored fns true 5 VUndefined None VUndefined
                           (VNum 0) w0 eq_refl))).
  - exact (proj1 (proj2 (proj2 (proj1 (falsy_hook_ignored fns true 5 VUndefined None
                                         VUndefined VNull w0 eq_refl))))).
Defined.

(** ** [Nage]: a pool with the default factory and no hooks *)

Section NageDefault.
Context {U : Type} (apply : behaviour U).
Implicit Types (p : Nage.t) (w : world U) (e : value).

(** The world after [getEmptyObject] was called by a pool. *)
Lemma nage_generate_default p w :
  Nage.create p = VRef RGetEmptyObject →
  Nage.generate apply (p, w) =
  let r := RObj (next_loc (hp w)) in
  (Normal (VRef r),
   (Nage.set_entries (<[r := Nage.name p]> (Nage.entries p)) p,
    World (Heap (S (next_loc (hp w))) (user (hp w))) (timeBasis w)
      (calls w ++ [made (VRef RGetEmptyObject) (VRef r)]))).
Proof. intros Hc. by rewrite nage_generate_eq, Hc, invoke_getEmptyObject. Qed.

Lemma nage_generate_push_default p w :
  Nage.create p = VRef RGetEmptyObject →
  Nage.generate_push apply (p, w) =
  let r := RObj (next_loc (hp w)) in
  (Normal tt,
   (Nage.set_stack (push (VRef r) (Nage.stack p))
      (Nage.set_entries (<[r := Nage.name p]> (Nage.entries p)) p),
    World (Heap (S (next_loc (hp w))) (user (hp w))) (timeBasis w)
      (calls w ++ [made (VRef RGetEmptyObject) (VRef r)]))).
Proof. intros Hc. by rewrite nage_generate_push_eq, nage_generate_default. Qed.

Lemma nage_reserve_pop_unhooked p w x l :
  Nage.onReserve p = VUndefined → Nage.stack p = push x l →
  Nage.reserve apply (p, w) = (Normal x, (Nage.set_stack l p, w)).
Proof.
  intros Hh Hs. rewrite nage_reserve_eq, (nage_stack_pop_push p w x l Hs), Hh.
  assert (Nage.stack p ≠ []) as Hne by (rewrite Hs; by destruct l).
  by destruct (Nage.stack p).
Qed.

Lemma nage_reserve_default p w :
  Nage.create p = VRef RGetEmptyObject → Nage.onReserve p = VUndefined →
  Nage.stack p = [] →
  Nage.reserve apply (p, w) = Nage.generate apply (p, w).
Proof.
  intros Hc Hh Hs. rewrite nage_reserve_eq, Hs, nage_generate_default by done.
  cbv zeta. by rewrite Hh.
Qed.

Lemma nage_release_unhooked e p w :
  nage_owns p e → Nage.onRelease p = VUndefined → e ∉ Nage.stack p →
  Nage.release apply e (p, w) =
  (Normal tt, (Nage.set_stack (push e (Nage.stack p)) p, w)).
Proof.
  intros Ho Hh Hnot. rewrite nage_release_eq.
  rewrite (proj2 (nage_owns_strict_eq p e) Ho). simpl.
  destruct (nage_owns_ref _ _ Ho) as [r ->].
  apply indexOf_ref in Hnot. rewrite Hnot. simpl. by rewrite Hh.
Qed.

Lemma nage_release_foreign e p w :
  ¬ nage_owns p e → Nage.release apply e (p, w) = (Throw OwnershipError, (p, w)).
Proof.
  intros Hno. rewrite nage_release_eq.
  destruct (strict_eq _ _) eqn:E; [|done]. by apply nage_owns_strict_eq in E.
Qed.
End NageDefault.


Section NageScenario.
Context {U : Type} (apply : behaviour U).
Implicit Types (p : Nage.t) (w : world U) (e : value).

(** [new Nage({ initialSize: 2 })] manufactures two objects with the
    default factory and holds them, in creation order, as its free list. *)
Lemma nage_constructor_two DEV rnd w :
  let n := next_loc (hp w) in
  ∃ P w1,
    Nage.constructor apply DEV rnd scenario_options w = (Normal P, w1)
    ∧ Nage.stack P = [VRef (RObj n); VRef (RObj (S n))]
    ∧ Nage.entries P = <[RObj (S n) := Nage.name P]> (<[RObj n := Nage.name P]> ∅)
    ∧ Nage.create P = VRef RGetEmptyObject
    ∧ Nage.onRelease P = VUndefined ∧ Nage.onReserve P = VUndefined
    ∧ next_loc (hp w1) = S (S n).
Proof.
  intros n. rewrite nage_constructor_eq. cbv zeta.
  replace (negb _) with false by done.
  replace (invalid_hook (Nage.opt_onRelease scenario_options) && DEV) with false by done.
  replace (invalid_hook (Nage.opt_onReserve scenario_options) && DEV) with false by done.
  rewrite nage_populate_eq.
  change (seqZ 0 (default 0 (Nage.opt_initialSize scenario_options))) with [0; 1].
  unfold for_each. unfold bind at 1.
  rewrite nage_generate_push_default by done. cbv zeta.
  unfold bind at 1. rewrite nage_generate_push_default by done. cbv zeta.
  unfold ret. eexists _, _. split; [reflexivity|].
  by destruct DEV.
Qed.

(** C7.  [P = new Nage({ initialSize: 2 })] has size 2; the first two
    reservations hand out the two prepopulated entries, last created
    first, and bring the size to 1 and then 0; the third one calls the
    factory (one more call is logged), hands out the new object and leaves
    the size at 0; releasing the first reserved entry brings the size to 1.
    From there, releasing a value the pool has not registered, such as an
    entry reserved from a second pool built afterwards, throws the
    ownership error and leaves the pool (hence its size) and the world
    untouched. *)
Theorem nage_scenario DEV rnd w :
  let n := next_loc (hp w) in
  let b := VRef (RObj n) in
  let a := VRef (RObj (S n)) in
  let c := VRef (RObj (S (S n))) in
  ∃ P w1 s2 s3 s4 s5,
    Nage.constructor apply DEV rnd scenario_options w = (Normal P, w1)
    ∧ Nage.size P = 2
    ∧ Nage.reserve apply (P, w1) = (Normal a, s2) ∧ Nage.size (fst s2) = 1
    ∧ Nage.reserve apply s2 = (Normal b, s3) ∧ Nage.size (fst s3) = 0
    ∧ Nage.reserve apply s3 = (Normal c, s4) ∧ Nage.size (fst s4) = 0
    ∧ calls (snd s4) = calls (snd s3) ++ [made (Nage.create P) c]
    ∧ Nage.release apply a s4 = (Normal tt, s5) ∧ Nage.size (fst s5) = 1
    ∧ (∀ foreign w', ¬ nage_owns (fst s5) foreign →
         Nage.release apply foreign (fst s5, w') = (Throw OwnershipError, (fst s5, w')))
    ∧ (∀ DEV' rnd' Q wq f sq,
         Nage.constructor apply DEV' rnd' scenario_options (snd s5) = (Normal Q, wq) →
         Nage.reserve apply (Q, wq) = (Normal f, sq) →
         ¬ nage_owns (fst s5) f).
Proof.
  intros n b a c.
  destruct (nage_constructor_two DEV rnd w)
    as (P & w1 & HP & Hs & He & Hc & Hrel & Hres & Hn).
  fold n in Hs, He, Hn.
  set (p2 := Nage.set_stack [b] P).
  set (p3 := Nage.set_stack [] p2).
  set (p4 := Nage.set_entries (<[RObj (S (S n)) := Nage.name P]> (Nage.entries P)) p3).
  set (w4 := World (Heap (S (S (S n))) (user (hp w1))) (timeBasis w1)
               (calls w1 ++ [made (VRef RGetEmptyObject) c])).
  set (p5 := Nage.set_stack [a] p4).
  assert (Nage.reserve apply (P, w1) = (Normal a, (p2, w1))) as H2.
  { apply nage_reserve_pop_unhooked; [done|]. by rewrite Hs. }
  assert (Nage.reserve apply (p2, w1) = (Normal b, (p3, w1))) as H3.
  { by apply nage_reserve_pop_unhooked. }
  assert (Nage.reserve apply (p3, w1) = (Normal c, (p4, w4))) as H4.
  { rewrite nage_reserve_default, nage_generate_default by done.
    cbv zeta. subst c p4 w4. by rewrite Hn. }
  assert (nage_owns p4 a) as Ha.
  { apply weakmap_get_str. exists (RObj (S n)). split; [done|]. simpl.
    rewrite lookup_insert_ne by (intros [= ?]; lia).
    rewrite He. apply lookup_insert_eq. }
  assert (Nage.release apply a (p4, w4) = (Normal tt, (p5, w4))) as H5.
  { apply nage_release_unhooked; [done|done|apply not_elem_of_nil]. }
  exists P, w1, (p2, w1), (p3, w1), (p4, w4), (p5, w4).
  split; [done|]. split; [unfold Nage.size; by rewrite Hs|].
  do 6 (split; [done|]). split; [simpl; by rewrite Hc|].
  split; [done|]. split; [done|]. split.
  - intros foreign w' Hno. by apply nage_release_foreign.
  - intros DEV' rnd' Q wq f sq HQ Hf.
    destruct (nage_constructor_two DEV' rnd' w4)
      as (Q' & wq' & HQ' & Hsq & _ & _ & _ & Hhq & _).
    simpl in HQ. rewrite HQ in HQ'. injection HQ' as <- <-.
    rewrite (nage_reserve_pop_unhooked apply Q wq
               (VRef (RObj (S (next_loc (hp w4))))) [VRef (RObj (next_loc (hp w4)))])
      in Hf by done.
    injection Hf as <- _. simpl.
    intros (r & [= <-] & Hlook)%weakmap_get_str. simpl in Hlook. rewrite He in Hlook.
    rewrite !lookup_insert_ne in Hlook by (intros [= ?]; lia). done.
Qed.
End NageScenario.

(** ** The theorems at work on the running examples *)

Lemma nage_free_entries_registered_witness :
  ∃ P w', Nage.constructor fns true 5 scenario_options w0 = (Normal P, w')
          ∧ nage_stack_registered P
          ∧ nage_stack_registered (fst (snd (Nage.reset fns (P, w')))).
Proof.
  destruct (Nage.constructor fns true 5 scenario_options w0) as [c w'] eqn:E.
  assert (∃ P, c = Normal P) as [P ->].
  { revert E. vm_compute. intros [= <- _]. by eexists. }
  exists P, w'. split; [reflexivity|].
  destruct (nage_free_entries_registered fns) as (Hnew & Hop & _).
  pose proof (Hnew true 5 scenario_options w0 w' P E) as HP.
  split; [exact HP|].
  destruct (Nage.reset fns (P, w')) as [r s'] eqn:Er.
  exact (Hop NReset r (P, w') s' Er HP).
Defined.



Lemma nage_scenario_witness :
  ∃ P w' (s5 : Nage.t * world unit),
    Nage.constructor fns true 5 scenario_options w0 = (Normal P, w')
    ∧ Nage.size P = 2
    ∧ Nage.size (fst s5) = 1
    ∧ Nage.release fns (VNum 7) (fst s5, w0) = (Throw OwnershipError, (fst s5, w0)).
Proof.
  destruct (nage_scenario fns true 5 w0)
    as (P & w' & s2 & s3 & s4 & s5 & HP & Hsize & _ & _ & _ & _ & _ & _ & _ & _ &
        Hsize5 & Hforeign & _).
  exists P, w', s5. split; [exact HP|]. split; [exact Hsize|]. split; [exact Hsize5|].
  apply Hforeign. unfold nage_owns. simpl. discriminate.
Defined.

(** * Further properties of the two classes *)

(** ** [Pool.clear] *)

Section PoolClear.
Context {U : Type} (apply : behaviour U).
Implicit Types (p : Pool.t) (w : world U) (e : value).

End PoolClear.


(** ** Hooks and factories that fail *)

Section FailingCallbacks.
Context {U : Type} (apply : behaviour U).


End FailingCallbacks.



Section FailingFactory.
Context {U : Type} (apply : behaviour U).

End FailingFactory.


(** ** [Nage]: registrations and the call log *)

Section NageAccounting.
Context {U : Type} (apply : behaviour U).
Implicit Types (p : Nage.t) (w : world U) (e : value).

Lemma nage_release_extends e p w r p' w' :
  Nage.release apply e (p, w) = (r, (p', w')) → nage_extends p p'.
Proof.
  rewrite nage_release_eq. destruct (negb _).
  { intros [= _ <- _]. apply nage_extends_refl. }
  destruct (_ =? _); [|intros [= _ <- _]; apply nage_extends_refl].
  destruct (Nage.run_hook _ _ _ _) as [[] [p1 w1]] eqn:E;
    apply nage_run_hook_this in E as ->; intros [= _ <- _];
    [apply nage_extends_set_stack|apply nage_extends_refl].
Qed.

Lemma nage_stack_pop_inv p w r p' w' :
  Nage.stack_pop (p, w) = (r, (p', w')) →
  w' = w ∧ ∃ l, p' = Nage.set_stack l p.
Proof.
  unfold Nage.stack_pop. destruct (last _); intros [= _ <- <-]; split; try done.
  - by eexists.
  - exists (Nage.stack p). by destruct p.
Qed.

Lemma nage_reserve_extends p w r p' w' :
  Nage.reserve apply (p, w) = (r, (p', w')) → nage_extends p p'.
Proof.
  rewrite nage_reserve_eq.
  set (first := match Nage.stack p with [] => _ | _ => _ end).
  assert (∀ r1 p1 w1, first = (r1, (p1, w1)) → nage_extends p p1) as Hfirst.
  { subst first. destruct (Nage.stack p); intros ???;
      [apply nage_generate_extends|].
    intros (_ & l' & ->)%nage_stack_pop_inv. apply nage_extends_set_stack. }
  destruct first as [[x|y] [p1 w1]].
  - specialize (Hfirst _ _ _ eq_refl).
    destruct (Nage.run_hook _ _ _ _) as [[] [p2 w2]] eqn:E;
      apply nage_run_hook_this in E as ->; by intros [= _ <- _].
  - specialize (Hfirst _ _ _ eq_refl). by intros [= _ <- _].
Qed.

Lemma nage_step_extends (s s' : Nage.t * world U) :
  nage_step apply s s' → nage_extends (fst s) (fst s').
Proof.
  destruct s as [p w], s' as [p' w']. intros [[| |e|] Hrun]; simpl in *.
  - unfold bind in Hrun. destruct (Nage.generate _ _) as [[] [p1 w1]] eqn:E;
      simpl in Hrun; injection Hrun as <- <-; by eapply nage_generate_extends.
  - unfold bind in Hrun. destruct (Nage.reserve _ _) as [[] [p1 w1]] eqn:E;
      simpl in Hrun; injection Hrun as <- <-; by eapply nage_reserve_extends.
  - destruct (Nage.release _ _ _) as [r [p1 w1]] eqn:E.
    simpl in Hrun; injection Hrun as <- <-. by eapply nage_release_extends.
  - destruct (Nage.reset _ _) as [r [p1 w1]] eqn:E.
    simpl in Hrun; injection Hrun as <- <-. by eapply nage_reset_extends.
Qed.

Lemma nage_steps_extends (s s' : Nage.t * world U) :
  rtc (nage_step apply) s s' → nage_extends (fst s) (fst s').
Proof.
  induction 1 as [|s1 s2 s3 H12 _ IH]; [apply nage_extends_refl|].
  eapply nage_extends_trans; [by apply nage_step_extends|done].
Qed.

(** The log entry of a call. *)
Lemma invoke_log f a (w w' : world U) r :
  invoke apply f a w = (r, w') →
  timeBasis w' = timeBasis w ∧
  ((calls w' = calls w ∧ ∃ msg, r = Throw (TypeError msg)) ∨
   calls w' = calls w ++ [Call f a r]).
Proof.
  unfold invoke. destruct f as [| | | | | |[]];
    try (intros [= <- <-]; split; [done|left]; by eauto).
  - destruct (apply _ _ _) as [o h]. intros [= <- <-]. simpl. auto.
  - simpl. intros [= <- <-]. auto.
Qed.

Lemma nage_delta_refl (s : Nage.t * world U) : nage_delta s s.
Proof.
  split; [done|]. exists []. split; [by rewrite app_nil_r|].
  intros e. split; [by left|]. intros [?|[_ []%not_elem_of_nil]]. done.
Qed.

Lemma nage_delta_trans (s1 s2 s3 : Nage.t * world U) :
  Nage.create (fst s2) = Nage.create (fst s1) →
  nage_delta s1 s2 → nage_delta s2 s3 → nage_delta s1 s3.
Proof.
  intros Hc (Ht1 & tr1 & Hc1 & Ho1) (Ht2 & tr2 & Hc2 & Ho2).
  split; [congruence|]. exists (tr1 ++ tr2).
  split; [by rewrite Hc2, Hc1, <-app_assoc|].
  intros e. rewrite Ho2, Ho1, Hc, elem_of_app. tauto.
Qed.

(** A change of the free list alone adds nothing. *)
Lemma nage_delta_set_stack p w l : nage_delta (p, w) (Nage.set_stack l p, w).
Proof.
  split; [done|]. exists []. split; [by rewrite app_nil_r|].
  intros e. split; [by left|]. intros [?|[_ []%not_elem_of_nil]]. done.
Qed.

(** A hook call logs a call with an argument: never a factory result. *)
Lemma nage_run_hook_delta hook e p w r p' w' :
  Nage.run_hook apply hook e (p, w) = (r, (p', w')) → nage_delta (p, w) (p', w').
Proof.
  intros Hrun. pose proof (nage_run_hook_this _ _ _ _ _ _ _ _ Hrun) as ->.
  revert Hrun. rewrite nage_run_hook_eq. destruct (truthy hook).
  - destruct (invoke _ _ _ _) as [c w1] eqn:E.
    apply invoke_log in E as [Ht Hlog].
    intros Hrun. assert (w' = w1) as -> by (destruct c; by injection Hrun).
    split; [done|]. simpl.
    destruct Hlog as [[Hlog _]|Hlog].
    + exists []. split; [by rewrite app_nil_r|].
      intros e'. split; [by left|]. intros [?|[_ []%not_elem_of_nil]]. done.
    + exists [Call hook [e] c]. split; [done|].
      intros e'. split; [by left|]. intros [?|[_ Hin]]; [done|].
      apply list_elem_of_singleton in Hin. discriminate Hin.
  - intros [= _ <-]. apply nage_delta_refl.
Qed.

Lemma nage_generate_delta p w r p' w' :
  Nage.generate apply (p, w) = (r, (p', w')) → nage_delta (p, w) (p', w').
Proof.
  rewrite nage_generate_eq.
  destruct (invoke _ _ _ _) as [c w1] eqn:E. apply invoke_log in E as [Ht Hlog].
  intros Hgen.
  assert (w' = w1 ∧
          ((∃ l, c = Normal (VRef l) ∧
                 p' = Nage.set_entries (<[l := Nage.name p]> (Nage.entries p)) p) ∨
           ((∀ l, c ≠ Normal (VRef l)) ∧ p' = p))) as [-> Hcase].
  { revert Hgen. destruct c as [v|x]; [destruct v|]; intros [= _ <- <-];
      (split; [done|]); (try by (left; eauto)); right; by split. }
  clear Hgen. split; [done|]. simpl.
  destruct Hcase as [(l & -> & ->)|[Hc ->]].
  - destruct Hlog as [[_ [msg Hmsg]]|Hlog]; [discriminate Hmsg|].
    exists [made (Nage.create p) (VRef l)]. split; [done|].
    intros e. unfold nage_owns. rewrite !weakmap_get_str. simpl. split.
    + intros (l' & -> & Hl). destruct (decide (l = l')) as [->|Hne].
      * right. split; [by eexists|]. by apply list_elem_of_singleton.
      * left. exists l'. split; [done|]. by rewrite lookup_insert_ne in Hl.
    + intros [(l' & -> & Hl)|[_ Hin]].
      * exists l'. split; [done|]. destruct (decide (l = l')) as [->|Hne].
        -- apply lookup_insert_eq.
        -- by rewrite lookup_insert_ne.
      * apply list_elem_of_singleton in Hin. injection Hin as ->.
        exists l. split; [done|]. apply lookup_insert_eq.
  - assert (∀ tr, (tr = [] ∨ tr = [Call (Nage.create p) [] c]) →
              ∀ e, nage_owns p e ↔
                   nage_owns p e ∨ ((∃ r, e = VRef r) ∧ made (Nage.create p) e ∈ tr))
      as Hnone.
    { intros tr Htr e. split; [by left|]. intros [?|[[l ->] Hin]]; [done|].
      destruct Htr as [-> | ->]; [by apply not_elem_of_nil in Hin|].
      apply list_elem_of_singleton in Hin. injection Hin as <-. by destruct (Hc l). }
    destruct Hlog as [[Hlog _]|Hlog].
    + exists []. split; [by rewrite app_nil_r|]. apply Hnone. by left.
    + eexists. split; [done|]. apply Hnone. by right.
Qed.
End NageAccounting.

Section NageAccountingSteps.
Context {U : Type} (apply : behaviour U).
Implicit Types (p : Nage.t) (w : world U) (e : value).

Lemma nage_release_delta e p w r p' w' :
  Nage.release apply e (p, w) = (r, (p', w')) → nage_delta (p, w) (p', w').
Proof.
  rewrite nage_release_eq. destruct (negb _).
  { intros [= _ <- <-]. apply nage_delta_refl. }
  destruct (_ =? _); [|intros [= _ <- <-]; apply nage_delta_refl].
  destruct (Nage.run_hook _ _ _ _) as [[] [p1 w1]] eqn:E;
    pose proof (nage_run_hook_this _ _ _ _ _ _ _ _ E) as ->;
    apply nage_run_hook_delta in E; intros [= _ <- <-]; [|done].
  eapply (nage_delta_trans _ (p, w1)); [done|done|apply nage_delta_set_stack].
Qed.

Lemma nage_reserve_delta p w r p' w' :
  Nage.reserve apply (p, w) = (r, (p', w')) → nage_delta (p, w) (p', w').
Proof.
  rewrite nage_reserve_eq.
  set (first := match Nage.stack p with [] => _ | _ => _ end).
  assert (∀ r1 p1 w1, first = (r1, (p1, w1)) →
            nage_extends p p1 ∧ nage_delta (p, w) (p1, w1)) as Hfirst.
  { subst first. destruct (Nage.stack p); intros ??? E.
    - split; [by eapply nage_generate_extends|by eapply nage_generate_delta].
    - apply nage_stack_pop_inv in E as (-> & l' & ->).
      split; [apply nage_extends_set_stack|apply nage_delta_set_stack]. }
  destruct first as [[x|y] [p1 w1]];
    destruct (Hfirst _ _ _ eq_refl) as [(_ & Hc & _) Hd].
  - destruct (Nage.run_hook _ _ _ _) as [c [p2 w2]] eqn:E.
    apply nage_run_hook_delta in E.
    assert (nage_delta (p, w) (p2, w2)) as Hd2.
    { by eapply (nage_delta_trans _ (p1, w1)). }
    by destruct c; intros [= _ <- <-].
  - by intros [= _ <- <-].
Qed.

Lemma nage_generate_push_delta p w r p' w' :
  Nage.generate_push apply (p, w) = (r, (p', w')) → nage_delta (p, w) (p', w').
Proof.
  rewrite nage_generate_push_eq.
  destruct (Nage.generate _ _) as [[] [p1 w1]] eqn:E;
    pose proof (nage_generate_extends _ _ _ _ _ _ E) as (_ & Hc & _);
    apply nage_generate_delta in E; intros [= _ <- <-]; [|done].
  eapply (nage_delta_trans _ (p1, w1)); [done|done|apply nage_delta_set_stack].
Qed.

Lemma nage_loop_delta (l : list Z) p w r p' w' :
  for_each l (λ _, Nage.generate_push apply) (p, w) = (r, (p', w')) →
  nage_delta (p, w) (p', w').
Proof.
  revert p w. induction l as [|i l IH]; intros p w; simpl.
  { intros [= _ <- <-]. apply nage_delta_refl. }
  unfold bind at 1.
  destruct (Nage.generate_push apply (p, w)) as [[] [p1 w1]] eqn:E;
    pose proof (nage_generate_push_extends _ _ _ _ _ _ E) as (_ & Hc & _);
    apply nage_generate_push_delta in E.
  - intros H%IH. by eapply (nage_delta_trans _ (p1, w1)).
  - by intros [= _ <- <-].
Qed.

Lemma nage_reset_delta p w r p' w' :
  Nage.reset apply (p, w) = (r, (p', w')) → nage_delta (p, w) (p', w').
Proof.
  rewrite nage_reset_eq, nage_populate_eq. intros H%nage_loop_delta.
  eapply (nage_delta_trans _ (Nage.set_stack [] p, w));
    [done|apply nage_delta_set_stack|done].
Qed.

Lemma nage_step_delta (s s' : Nage.t * world U) :
  nage_step apply s s' → nage_delta s s'.
Proof.
  destruct s as [p w], s' as [p' w']. intros [[| |e|] Hrun]; simpl in *.
  - unfold bind in Hrun. destruct (Nage.generate _ _) as [[] [p1 w1]] eqn:E;
      simpl in Hrun; injection Hrun as <- <-; by eapply nage_generate_delta.
  - unfold bind in Hrun. destruct (Nage.reserve _ _) as [[] [p1 w1]] eqn:E;
      simpl in Hrun; injection Hrun as <- <-; by eapply nage_reserve_delta.
  - destruct (Nage.release _ _ _) as [r [p1 w1]] eqn:E.
    simpl in Hrun; injection Hrun as <- <-. by eapply nage_release_delta.
  - destruct (Nage.reset _ _) as [r [p1 w1]] eqn:E.
    simpl in Hrun; injection Hrun as <- <-. by eapply nage_reset_delta.
Qed.

Lemma nage_steps_delta (s s' : Nage.t * world U) :
  rtc (nage_step apply) s s' → nage_delta s s'.
Proof.
  induction 1 as [|s1 s2 s3 H12 _ IH]; [apply nage_delta_refl|].
  pose proof (nage_step_extends _ _ _ H12) as (_ & Hc & _).
  eapply nage_delta_trans; [done|by apply nage_step_delta|done].
Qed.

(** What construction itself adds: the counter moves by one, and the pool
    starts with exactly the registrations its prepopulation made. *)
Lemma nage_constructor_delta DEV rnd o w P w' :
  Nage.constructor apply DEV rnd o w = (Normal P, w') →
  timeBasis w' = timeBasis w + 1 ∧
  ∃ tr, calls w' = calls w ++ tr ∧
        ∀ e, nage_owns P e ↔ (∃ r, e = VRef r) ∧ made (Nage.create P) e ∈ tr.
Proof.
  rewrite nage_constructor_eq. cbv zeta.
  destruct (negb _); [done|].
  destruct (invalid_hook (Nage.opt_onRelease o) && DEV); [done|].
  destruct (invalid_hook (Nage.opt_onReserve o) && DEV); [done|].
  rewrite nage_populate_eq.
  destruct (for_each _ _ _) as [[[]|] [p1 w1]] eqn:E; [|done].
  pose proof (nage_loop_extends _ _ _ _ _ _ _ E) as (_ & Hc & _).
  apply nage_loop_delta in E as (Ht & tr & Hcalls & Ho). simpl in *.
  intros [= <- <-]. split; [done|]. exists tr. split; [done|].
  intros e.
  assert (nage_owns (if DEV then Nage.freeze p1 else p1) e ↔ nage_owns p1 e) as ->
    by (by destruct DEV).
  assert (Nage.create (if DEV then Nage.freeze p1 else p1) = Nage.create p1) as ->
    by (by destruct DEV).
  rewrite Ho, Hc. split; [|by right].
  intros [Hown|?]; [|done]. apply weakmap_get_str in Hown as (r & _ & Hl).
  unfold nage_unpopulated in Hl. cbn [Nage.entries] in Hl.
  by rewrite lookup_empty in Hl.
Qed.
End NageAccountingSteps.

(** ** [Nage.release]: what it accepts *)

Section NageOwnership.
Context {U : Type} (apply : behaviour U).
Implicit Types (p : Nage.t) (w : world U) (e : value).

Lemma nage_release_rejects_iff e p w :
  fst (Nage.release apply e (p, w)) = Throw OwnershipError ↔ ¬ nage_owns p e.
Proof.
  split.
  - intros Hthrow Ho. revert Hthrow. rewrite nage_release_eq.
    rewrite (proj2 (nage_owns_strict_eq p e) Ho). simpl.
    destruct (_ =? _); [|done]. rewrite nage_run_hook_eq.
    destruct (truthy _); [|done].
    destruct (invoke _ _ _ _) as [[] ?] eqn:E; [done|]. simpl.
    intros [= ->]. by eapply invoke_not_Error in E.
  - intros Hno. by rewrite nage_release_foreign.
Qed.




Lemma nage_reserve_owns p w x p' w' :
  nage_stack_registered p →
  Nage.reserve apply (p, w) = (Normal x, (p', w')) → nage_owns p' x.
Proof.
  intros Hreg Hres. pose proof (nage_reserve_extends _ _ _ _ _ _ Hres) as Hext.
  revert Hres. rewrite nage_reserve_eq.
  destruct (Nage.stack p) as [|y l _] eqn:Hs using rev_ind.
  - destruct (Nage.generate _ _) as [[z|] [p1 w1]] eqn:E; [|done].
    apply nage_generate_inv in E as (_ & _ & Ho & _).
    destruct (Nage.run_hook _ _ _ _) as [[] [p2 w2]] eqn:Eh; [|done].
    apply nage_run_hook_this in Eh as ->. by intros [= <- <- _].
  - assert (Nage.stack_pop (p, w) = (Normal y, (Nage.set_stack l p, w))) as Hpop.
    { by apply nage_stack_pop_push. }
    assert (nage_owns p y) as Hy.
    { unfold nage_stack_registered in Hreg. rewrite Hs in Hreg.
      apply Forall_app in Hreg as [_ Hy]. by inversion Hy. }
    destruct (l ++ [y]) eqn:Hl; [by destruct l|]. rewrite Hpop.
    destruct (Nage.run_hook _ _ _ _) as [[] [p2 w2]]; [|done].
    intros [= <- _ _]. destruct Hext as (_&_&_&_&_&Hmono). by apply Hmono.
Qed.

Lemma nage_reachable_registered DEV rnd o (w0 w1 : world U) P s :
  Nage.constructor apply DEV rnd o w0 = (Normal P, w1) →
  rtc (nage_step apply) (P, w1) s → nage_stack_registered (fst s).
Proof.
  intros Hnew%nage_constructor_registered Hsteps.
  change P with (fst (P, w1)) in Hnew. revert Hnew.
  induction Hsteps as [|s1 s2 s3 H12 _ IH]; [done|].
  intros Hreg. apply IH. by eapply nage_step_registered.
Qed.

(** X6.  Whatever [reserve()] hands out can be handed back: in every state
    a pool reaches from its construction, the entry a [reserve()] returns
    is registered, and it stays so through everything the pool does
    afterwards, a [reset()] included; so [release] of it never raises the
    ownership error. *)
Theorem nage_reserved_entry_accepted DEV rnd o (w0 w1 : world U) P s x s' s'' :
  Nage.constructor apply DEV rnd o w0 = (Normal P, w1) →
  rtc (nage_step apply) (P, w1) s →
  Nage.reserve apply s = (Normal x, s') →
  rtc (nage_step apply) s' s'' →
  nage_owns (fst s'') x
  ∧ fst (Nage.release apply x s'') ≠ Throw OwnershipError.
Proof.
  intros Hnew Hsteps Hres Hlater.
  destruct s as [p w], s' as [p' w'], s'' as [p'' w''].
  pose proof (nage_reachable_registered _ _ _ _ _ _ _ Hnew Hsteps) as Hreg.
  pose proof (nage_reserve_owns _ _ _ _ _ Hreg Hres) as Ho.
  apply nage_steps_extends in Hlater as (_&_&_&_&_&Hmono).
  assert (nage_owns p'' x) as Ho'' by (by apply Hmono).
  split; [done|]. intros Hthrow. by apply nage_release_rejects_iff in Hthrow.
Qed.

(** X7.  A pool accepts exactly what it manufactured: in every state
    reached from construction, the values [release] does not reject for
    ownership are the objects returned by the calls of the pool's factory
    that the pool has made since its construction began. *)
Theorem nage_accepts_what_it_made DEV rnd o (w0 w1 : world U) P p w :
  Nage.constructor apply DEV rnd o w0 = (Normal P, w1) →
  rtc (nage_step apply) (P, w1) (p, w) →
  ∃ tr, calls w = calls w0 ++ tr ∧
    ∀ e, fst (Nage.release apply e (p, w)) ≠ Throw OwnershipError ↔
         (∃ r, e = VRef r) ∧ made (Nage.create P) e ∈ tr.
Proof.
  intros Hnew Hsteps.
  apply nage_constructor_delta in Hnew as (_ & tr1 & Hc1 & Ho1).
  apply nage_steps_delta in Hsteps as (_ & tr2 & Hc2 & Ho2). simpl in *.
  exists (tr1 ++ tr2). split; [by rewrite Hc2, Hc1, <-app_assoc|].
  intros e. rewrite nage_release_rejects_iff, elem_of_app.
  assert (¬ ¬ nage_owns p e ↔ nage_owns p e) as ->.
  { split; [|tauto].
    destruct (decide (weakmap_get (Nage.entries p) e = VStr (Nage.name p))); tauto. }
  rewrite Ho2, Ho1. tauto.
Qed.
End NageOwnership.

Lemma two_nage_constructed :
  Nage.constructor fns true 5 scenario_options w0 = (Normal two_nage, two_world).
Proof. vm_compute. reflexivity. Qed.


Lemma nage_reserved_entry_accepted_witness :
  let s' := snd (Nage.reserve fns (two_nage, two_world)) in
  let s'' := snd (Nage.reset fns s') in
  nage_owns (fst s'') (VRef (RObj 1))
  ∧ fst (Nage.release fns (VRef (RObj 1)) s'') ≠ Throw OwnershipError.
Proof.
  intros s' s''.
  assert (Nage.constructor fns true 5 scenario_options w0 = (Normal two_nage, two_world))
    as Hnew by (vm_compute; reflexivity).
  assert (Nage.reserve fns (two_nage, two_world) = (Normal (VRef (RObj 1)), s'))
    as Hres by reflexivity.
  assert (rtc (nage_step fns) s' s'') as Hlater.
  { apply rtc_once. by exists NReset. }
  exact (nage_reserved_entry_accepted fns true 5 scenario_options w0 two_world two_nage
           (two_nage, two_world) (VRef (RObj 1)) s' s'' Hnew (rtc_refl _ _) Hres Hlater).
Defined.

Lemma nage_accepts_what_it_made_witness :
  ∃ tr, calls two_world = calls w0 ++ tr ∧
    ∀ e, fst (Nage.release fns e (two_nage, two_world)) ≠ Throw OwnershipError ↔
         (∃ r, e = VRef r) ∧ made (Nage.create two_nage) e ∈ tr.
Proof.
  assert (Nage.constructor fns true 5 scenario_options w0 = (Normal two_nage, two_world))
    as Hnew by (vm_compute; reflexivity).
  exact (nage_accepts_what_it_made fns true 5 scenario_options w0 two_world two_nage
           two_nage two_world Hnew (rtc_refl _ _)).
Defined.

(** ** Pool names *)

Lemma string_nil_app (x : string) : "" +:+ x = x.
Proof. reflexivity. Qed.

Lemma string_cons_app c (a x : string) : String c a +:+ x = String c (a +:+ x).
Proof. reflexivity. Qed.

Lemma pretty_N_go_no_underscore (x : N) s :
  (∀ a b, s ≠ a +:+ "_" +:+ b) →
  ∀ a b, pretty_N_go x s ≠ a +:+ "_" +:+ b.
Proof.
  revert s. induction (N.lt_wf_0 x) as [x _ IH]; intros s Hs.
  assert (x = 0 ∨ 0 < x)%N as [->|?] by lia.
  - by rewrite pretty_N_go_0.
  - rewrite pretty_N_go_step by done. apply IH; [by apply N.div_lt|].
    intros [|c a] b.
    + rewrite string_nil_app, string_cons_app, string_nil_app.
      intros [= Hc _]. revert Hc. unfold pretty_N_char. by repeat case_match.
    + rewrite string_cons_app. intros [= _ Hs']. by apply (Hs a b).
Qed.

Lemma pretty_Z_no_underscore (z : Z) a b : pretty z ≠ a +:+ "_" +:+ b.
Proof.
  assert (∀ a b, "" ≠ a +:+ "_" +:+ b) as Hnil by (by intros []).
  assert (∀ x : positive, ∀ a b, pretty x ≠ a +:+ "_" +:+ b) as Hpos.
  { intros x. unfold pretty, pretty_positive, pretty, pretty_N.
    case_decide; [done|]. by apply pretty_N_go_no_underscore. }
  destruct z as [|x|x]; unfold pretty, pretty_Z.
  - destruct a as [|c a]; [done|]. rewrite string_cons_app.
    intros [= _ H]. by apply (Hnil a b).
  - apply Hpos.
  - destruct a as [|c a]; [done|]. rewrite !string_cons_app, string_nil_app.
    intros [= _ H]. by apply (Hpos x a b).
Qed.

Lemma app_underscore_inj a1 b1 a2 b2 :
  (∀ a b, a1 ≠ a +:+ "_" +:+ b) → (∀ a b, a2 ≠ a +:+ "_" +:+ b) →
  a1 +:+ "_" +:+ b1 = a2 +:+ "_" +:+ b2 → a1 = a2 ∧ b1 = b2.
Proof.
  revert a2. induction a1 as [|c a1 IH]; intros [|c2 a2] H1 H2;
    rewrite ?string_nil_app, ?string_cons_app, ?string_nil_app.
  - by intros [= ->].
  - intros [= <- _]. by destruct (H2 "" a2).
  - intros [= -> _]. by destruct (H1 "" a1).
  - intros [= -> Heq]. apply IH in Heq as [-> ->]; [done|..].
    + intros a b ->. by apply (H1 (String c2 a) b).
    + intros a b ->. by apply (H2 (String c2 a) b).
Qed.

Lemma string_app_inv_l (pre x y : string) : pre +:+ x = pre +:+ y → x = y.
Proof. apply (inj (String.append pre)). Qed.

Lemma pool_name_inj prefix tb rnd tb' rnd' :
  pool_name prefix tb rnd = pool_name prefix tb' rnd' → tb = tb' ∧ rnd = rnd'.
Proof.
  unfold pool_name. intros H%string_app_inv_l.
  apply app_underscore_inj in H as [Ht Hr]; [|apply pretty_Z_no_underscore..].
  split; by apply (inj pretty).
Qed.

Section PoolWorld.
Context {U : Type} (apply : behaviour U).

Lemma pool_run_hook_timeBasis hook e (p : Pool.t) (w : world U) r p' w' :
  Pool.run_hook apply hook e (p, w) = (r, (p', w')) → timeBasis w' = timeBasis w.
Proof.
  rewrite pool_run_hook_eq. destruct (truthy hook); [|by intros [= _ _ <-]].
  destruct (invoke _ _ _ _) as [c w1] eqn:E. apply invoke_world in E as [Ht _].
  by destruct c; intros [= _ _ <-].
Qed.

Lemma pool_generate_timeBasis (p : Pool.t) (w : world U) r p' w' :
  Pool.generate apply (p, w) = (r, (p', w')) → timeBasis w' = timeBasis w.
Proof.
  rewrite pool_generate_eq.
  destruct (invoke _ _ _ _) as [c w1] eqn:E. apply invoke_world in E as [Ht _].
  by destruct c as [[]|]; intros [= _ _ <-].
Qed.

Lemma pool_step_timeBasis (s s' : Pool.t * world U) :
  pool_step apply s s' → timeBasis (snd s') = timeBasis (snd s).
Proof.
  destruct s as [p w], s' as [p' w']. intros [[| |e|] Hrun]; simpl in *.
  - unfold bind in Hrun. destruct (Pool.generate _ _) as [[] [p1 w1]] eqn:E;
      simpl in Hrun; injection Hrun as <- <-; by eapply pool_generate_timeBasis.
  - unfold bind in Hrun. rewrite pool_reserve_eq in Hrun.
    assert (∀ r1 p1 w1,
              match Pool.stack p with
              | [] => Pool.generate apply (p, w)
              | _ => Pool.stack_pop (p, w)
              end = (r1, (p1, w1)) → timeBasis w1 = timeBasis w) as Hfirst.
    { destruct (Pool.stack p); intros ???; [apply pool_generate_timeBasis|].
      unfold Pool.stack_pop. by destruct (last _); intros [= _ _ <-]. }
    destruct (match Pool.stack p with [] => _ | _ => _ end) as [[x|y] [p1 w1]];
      specialize (Hfirst _ _ _ eq_refl).
    + destruct (Pool.run_hook _ _ _ _) as [c [p2 w2]] eqn:E.
      apply pool_run_hook_timeBasis in E.
      destruct c; simpl in Hrun; injection Hrun as <- <-; congruence.
    + simpl in Hrun. by injection Hrun as <- <-.
  - rewrite pool_release_eq in Hrun. destruct (negb _); [by injection Hrun as <- <-|].
    destruct (_ =? _); [|by injection Hrun as <- <-].
    destruct (Pool.run_hook _ _ _ _) as [c [p2 w2]] eqn:E.
    apply pool_run_hook_timeBasis in E.
    destruct c; simpl in Hrun; by injection Hrun as <- <-.
  - by injection Hrun as <- <-.
Qed.

(** X8.  The counter part makes pool names unique: a construction, whether
    it returns or throws, moves the module counter up by one, nothing else
    the pool does moves it, and the name is the prefix, the counter value
    read and the random part; so two pools built from different counter
    values, as any two built in one run are, bear different names,
    whatever their random parts. *)
Theorem pool_names_distinct :
  (∀ DEV rnd o (w w' : world U) r,
     Pool.constructor DEV rnd o w = (r, w') →
     timeBasis w' = timeBasis w + 1
     ∧ ∀ P, r = Normal P → Pool.name P = pool_name "pool_" (timeBasis w) rnd)
  ∧ (∀ DEV rnd o (w w' : world U) r,
       Nage.constructor apply DEV rnd o w = (r, w') →
       timeBasis w' = timeBasis w + 1
       ∧ ∀ P, r = Normal P → Nage.name P = pool_name "nage_" (timeBasis w) rnd)
  ∧ (∀ s s' : Pool.t * world U,
       pool_step apply s s' → timeBasis (snd s') = timeBasis (snd s))
  ∧ (∀ s s' : Nage.t * world U,
       nage_step apply s s' → timeBasis (snd s') = timeBasis (snd s))
  ∧ (∀ DEV1 rnd1 o1 (w1 w1' : world U) P1 DEV2 rnd2 o2 (w2 w2' : world U) P2,
       Pool.constructor DEV1 rnd1 o1 w1 = (Normal P1, w1') →
       Pool.constructor DEV2 rnd2 o2 w2 = (Normal P2, w2') →
       timeBasis w1 ≠ timeBasis w2 → Pool.name P1 ≠ Pool.name P2)
  ∧ (∀ DEV1 rnd1 o1 (w1 w1' : world U) P1 DEV2 rnd2 o2 (w2 w2' : world U) P2,
       Nage.constructor apply DEV1 rnd1 o1 w1 = (Normal P1, w1') →
       Nage.constructor apply DEV2 rnd2 o2 w2 = (Normal P2, w2') →
       timeBasis w1 ≠ timeBasis w2 → Nage.name P1 ≠ Nage.name P2).
Proof.
  assert (∀ DEV rnd o (w w' : world U) r,
            Pool.constructor DEV rnd o w = (r, w') →
            timeBasis w' = timeBasis w + 1
            ∧ ∀ P, r = Normal P → Pool.name P = pool_name "pool_" (timeBasis w) rnd)
    as Hpool.
  { intros DEV rnd o w w' r. rewrite pool_constructor_eq. cbv zeta.
    destruct (negb _); [by intros [= <- <-]|].
    destruct (invalid_hook (Pool.opt_onRelease o) && DEV); [by intros [= <- <-]|].
    destruct (invalid_hook (Pool.opt_onReserve o) && DEV); [by intros [= <- <-]|].
    intros [= <- <-]. split; [done|]. by intros P [= <-]. }
  assert (∀ DEV rnd o (w w' : world U) r,
            Nage.constructor apply DEV rnd o w = (r, w') →
            timeBasis w' = timeBasis w + 1
            ∧ ∀ P, r = Normal P → Nage.name P = pool_name "nage_" (timeBasis w) rnd)
    as Hnage.
  { intros DEV rnd o w w' r. rewrite nage_constructor_eq. cbv zeta.
    destruct (negb _); [by intros [= <- <-]|].
    destruct (invalid_hook (Nage.opt_onRelease o) && DEV); [by intros [= <- <-]|].
    destruct (invalid_hook (Nage.opt_onReserve o) && DEV); [by intros [= <- <-]|].
    rewrite nage_populate_eq.
    destruct (for_each _ _ _) as [c [p1 w1]] eqn:E.
    pose proof (nage_loop_extends _ _ _ _ _ _ _ E) as (Hname & _).
    apply nage_loop_delta in E as (Ht & _). simpl in Ht.
    destruct c as [[]|]; intros [= <- <-]; (split; [done|]); [|done].
    intros P [= <-]. by destruct DEV. }
  split; [done|]. split; [done|].
  split; [apply pool_step_timeBasis|].
  split; [intros s s' H; by apply nage_step_delta in H as [? _]|].
  split.
  - intros ???????????? [_ H1]%Hpool [_ H2]%Hpool Hne.
    rewrite (H1 _ eq_refl), (H2 _ eq_refl). by intros [? _]%pool_name_inj.
  - intros ???????????? [_ H1]%Hnage [_ H2]%Hnage Hne.
    rewrite (H1 _ eq_refl), (H2 _ eq_refl). by intros [? _]%pool_name_inj.
Qed.
End PoolWorld.

Lemma pool_names_distinct_witness :
  ∃ P1 P2 : Pool.t,
    Pool.constructor true 5 Pool.EMPTY_OBJECT w0 = (Normal P1, w1)
    ∧ fst (Pool.constructor true 5 Pool.EMPTY_OBJECT w1) = Normal P2
    ∧ Pool.name P1 ≠ Pool.name P2.
Proof.
  set (c2 := Pool.constructor true 5 Pool.EMPTY_OBJECT w1).
  exists fresh_pool, (Pool.set_name "pool_101_5" fresh_pool).
  assert (Pool.constructor true 5 Pool.EMPTY_OBJECT w0 = (Normal fresh_pool, w1))
    as H1 by reflexivity.
  assert (c2 = (Normal (Pool.set_name "pool_101_5" fresh_pool), snd c2))
    as H2 by reflexivity.
  split; [exact H1|]. split; [by rewrite H2|].
  refine (proj1 (proj2 (proj2 (proj2 (proj2 (pool_names_distinct fns)))))
            true 5 Pool.EMPTY_OBJECT w0 w1 fresh_pool
            true 5 Pool.EMPTY_OBJECT w1 (snd c2) _ H1 H2 _).
  simpl. lia.
Defined.

(** ** [Pool]: the free list and the registry *)

Section PoolFreeListBound.
Context {U : Type} (apply : behaviour U).


End PoolFreeListBound.


(** ** [Nage]: construction *)

Section NageConstruction.
Context {U : Type} (apply : behaviour U).
Implicit Types (p : Nage.t) (w : world U) (e : value).

(** X10.  The [Nage] constructor validates before it prepopulates: when
    [create] is not a function, or in development mode a hook option is
    truthy and not a function, it throws the configuration error without
    having called the factory, whatever [initialSize] is (heap and call
    log are as before, only the module counter has moved).  Conversely an
    error of the pool's own making coming out of the constructor means
    that no call was made: what a failing prepopulation throws is the
    factory's exception or a TypeError. *)
Theorem nage_validation_before_prepopulation DEV rnd (o : Nage.Options) w :
  let w1 := World (hp w) (timeBasis w + 1) (calls w) in
  let create := default_to (VRef RGetEmptyObject) (Nage.opt_create o) in
  (is_function create = false →
     Nage.constructor apply DEV rnd o w = (Throw (ConfigurationError "create"), w1))
  ∧ (is_function create = true → DEV = true →
     invalid_hook (Nage.opt_onRelease o) = true →
     Nage.constructor apply DEV rnd o w = (Throw (ConfigurationError "onRelease"), w1))
  ∧ (is_function create = true → DEV = true →
     invalid_hook (Nage.opt_onRelease o) = false →
     invalid_hook (Nage.opt_onReserve o) = true →
     Nage.constructor apply DEV rnd o w = (Throw (ConfigurationError "onReserve"), w1))
  ∧ (∀ msg w', Nage.constructor apply DEV rnd o w = (Throw (Error msg), w') → w' = w1).
Proof.
  intros w1 create. split; [|split; [|split]].
  - intros Hc. rewrite nage_constructor_eq. cbv zeta. fold create. by rewrite Hc.
  - intros Hc -> Hrel. rewrite nage_constructor_eq. cbv zeta. fold create.
    by rewrite Hc, Hrel.
  - intros Hc -> Hrel Hres. rewrite nage_constructor_eq. cbv zeta. fold create.
    by rewrite Hc, Hrel, Hres.
  - intros msg w'. rewrite nage_constructor_eq. cbv zeta.
    destruct (negb _); [by intros [= _ <-]|].
    destruct (invalid_hook (Nage.opt_onRelease o) && DEV); [by intros [= _ <-]|].
    destruct (invalid_hook (Nage.opt_onReserve o) && DEV); [by intros [= _ <-]|].
    rewrite nage_populate_eq.
    destruct (for_each _ _ _) as [[[]|x] [p1 w2]] eqn:E; [done|].
    intros [= -> _]. by eapply nage_loop_not_Error in E.
Qed.

Lemma nage_reserve_pop p w x l :
  Nage.stack p = push x l →
  Nage.reserve apply (p, w) =
  (let* _ := Nage.run_hook apply (Nage.onReserve p) x in ret x) (Nage.set_stack l p, w).
Proof.
  intros Hs. rewrite nage_reserve_eq, (nage_stack_pop_push p w x l Hs).
  unfold bind, ret.
  assert (Nage.stack p ≠ []) as Hne by (rewrite Hs; by destruct l).
  destruct (Nage.stack p); [done|].
  by destruct (Nage.run_hook _ _ _ _) as [[] ?].
Qed.

Lemma nage_constructor_stack DEV rnd o (w w' : world U) P :
  Nage.constructor apply DEV rnd o w = (Normal P, w') →
  length (Nage.stack P) = Z.to_nat (Nage.initialSize P)
  ∧ calls w' = calls w ++ (made (Nage.create P) <$> Nage.stack P).
Proof.
  rewrite nage_constructor_eq. cbv zeta.
  destruct (negb _); [done|].
  destruct (invalid_hook (Nage.opt_onRelease o) && DEV); [done|].
  destruct (invalid_hook (Nage.opt_onReserve o) && DEV); [done|].
  rewrite nage_populate_eq.
  destruct (for_each _ _ _) as [[[]|] [p1 w1]] eqn:E; [|done].
  pose proof (nage_loop_extends _ _ _ _ _ _ _ E) as (_ & Hc & _ & _ & Hn & _).
  apply nage_loop_returns in E as (es & Hlen & Hs & Hcalls). simpl in *.
  intros [= <- <-].
  assert (Nage.initialSize (if DEV then Nage.freeze p1 else p1) = Nage.initialSize p1
          ∧ Nage.stack (if DEV then Nage.freeze p1 else p1) = Nage.stack p1
          ∧ Nage.create (if DEV then Nage.freeze p1 else p1) = Nage.create p1)
    as (-> & -> & ->) by (by destruct DEV).
  rewrite Hn, Hs, Hlen, Hc, Hcalls, length_seqZ. done.
Qed.

(** X11.  Prepopulation pushes in creation order, so a pool constructed
    with [initialSize] at least 1 hands out first the entry it manufactured
    last: the last factory call logged by the constructor returned the
    entry at the end of the free list, and that is the entry the first
    [reserve()] takes (it runs the hook on it and returns it, without
    calling the factory). *)
Theorem nage_prepopulated_last_first DEV rnd o (w0 w1 : world U) P :
  Nage.constructor apply DEV rnd o w0 = (Normal P, w1) →
  1 ≤ Nage.initialSize P →
  ∃ l x tr,
    Nage.stack P = push x l
    ∧ calls w1 = calls w0 ++ tr ++ [made (Nage.create P) x]
    ∧ ∀ w, Nage.reserve apply (P, w) =
           (let* _ := Nage.run_hook apply (Nage.onReserve P) x in ret x)
             (Nage.set_stack l P, w).
Proof.
  intros Hnew Hn.
  destruct (nage_constructor_stack _ _ _ _ _ _ Hnew) as (Hsize & Hcalls).
  destruct (Nage.stack P) as [|x l _] eqn:Hs using rev_ind.
  { simpl in Hsize. lia. }
  exists l, x, (made (Nage.create P) <$> l). split; [done|]. split.
  - by rewrite Hcalls, fmap_app.
  - intros w. apply nage_reserve_pop. by rewrite Hs.
Qed.
End NageConstruction.

Lemma nage_validation_before_prepopulation_witness :
  Nage.constructor fns true 5
    {| Nage.opt_create := VUndefined; Nage.opt_initialSize := Some 3;
       Nage.opt_onRelease := VNum 1; Nage.opt_onReserve := VUndefined |} w0
  = (Throw (ConfigurationError "onRelease"), w1).
Proof.
  exact (proj1 (proj2 (nage_validation_before_prepopulation fns true 5
                         {| Nage.opt_create := VUndefined; Nage.opt_initialSize := Some 3;
                            Nage.opt_onRelease := VNum 1;
                            Nage.opt_onReserve := VUndefined |} w0))
           eq_refl eq_refl eq_refl).
Defined.

Lemma nage_prepopulated_last_first_witness :
  ∃ l x tr,
    Nage.stack two_nage = push x l
    ∧ calls two_world = calls w0 ++ tr ++ [made (Nage.create two_nage) x]
    ∧ ∀ w, Nage.reserve fns (two_nage, w) =
           (let* _ := Nage.run_hook fns (Nage.onReserve two_nage) x in ret x)
             (Nage.set_stack l two_nage, w).
Proof.
  assert (Nage.constructor fns true 5 scenario_options w0 = (Normal two_nage, two_world))
    as Hnew by (vm_compute; reflexivity).
  assert (1 ≤ Nage.initialSize two_nage) as Hn by (simpl; lia).
  exact (nage_prepopulated_last_first fns true 5 scenario_options w0 two_world two_nage
           Hnew Hn).
Defined.

(** ** [Pool] with the default factory *)

Section PoolPlain.
Context {U : Type} (apply : behaviour U).
Implicit Types (p : Pool.t) (w : world U) (e : value).

Lemma list_case_snoc {A B} (l : list A) (x : A) (a b : B) :
  match l ++ [x] with [] => a | _ :: _ => b end = b.
Proof. by destruct l. Qed.

Lemma pool_generate_default p w :
  Pool.create p = VRef RGetEmptyObject →
  Pool.generate apply (p, w) =
  (Normal (VRef (RObj (next_loc (hp w)))),
   (Pool.set_entries (<[RObj (next_loc (hp w)) := Pool.name p]> (Pool.entries p)) p,
    World (Heap (S (next_loc (hp w))) (user (hp w))) (timeBasis w)
      (calls w ++ [made (VRef RGetEmptyObject) (VRef (RObj (next_loc (hp w))))]))).
Proof. intros Hc. by rewrite pool_generate_eq, Hc, invoke_getEmptyObject. Qed.

Lemma pool_plain_generate p w :
  pool_plain (p, w) → pool_plain (snd (Pool.generate apply (p, w))).
Proof.
  intros (Hc & Hrel & Hres & Hwf & Hb). rewrite pool_generate_default by done.
  split; [done|]. split; [done|]. split; [done|]. split.
  - eapply pool_generate_wf; [by apply pool_generate_default|done].
  - simpl in *. intros r Hr. destruct (decide (r = RObj (next_loc (hp w)))) as [->|Hne].
    + eexists. split; [done|]. lia.
    + rewrite lookup_insert_ne in Hr by done.
      destruct (Hb r Hr) as (l & -> & Hl). exists l. split; [done|lia].
Qed.

Lemma pool_plain_same_registry p w p' w' :
  pool_plain (p, w) → pool_extends p p' → pool_wf p' →
  Pool.entries p' = Pool.entries p → hp w' = hp w →
  pool_plain (p', w').
Proof.
  intros (Hc & Hrel & Hres & _ & Hb) (_ & Hc' & Hrel' & Hres' & _) Hwf He Hh.
  unfold pool_plain. simpl in *.
  split; [congruence|]. split; [congruence|]. split; [congruence|].
  split; [done|]. by rewrite He, Hh.
Qed.

Lemma pool_reserve_plain p w :
  pool_plain (p, w) →
  Pool.reserve apply (p, w) =
  match Pool.stack p with
  | [] => Pool.generate apply (p, w)
  | _ => Pool.stack_pop (p, w)
  end.
Proof.
  intros (Hc & _ & Hres & _). simpl in *. rewrite pool_reserve_eq, Hres.
  unfold Pool.stack_pop. destruct (Pool.stack p).
  - by rewrite pool_generate_default by done.
  - by destruct (last _).
Qed.

Lemma pool_release_plain e p w :
  pool_plain (p, w) →
  Pool.release apply e (p, w) =
  if negb (strict_eq (weakmap_get (Pool.entries p) e) (VStr (Pool.name p)))
  then (Throw OwnershipError, (p, w))
  else if indexOf (Pool.stack p) e =? -1
       then (Normal tt, (Pool.set_stack (push e (Pool.stack p)) p, w))
       else (Normal tt, (p, w)).
Proof. intros (_ & Hrel & _). simpl in *. by rewrite pool_release_eq, Hrel. Qed.

Lemma pool_plain_step (s s' : Pool.t * world U) :
  pool_plain s → pool_step apply s s' → pool_plain s'.
Proof.
  intros Hplain Hstep.
  pose proof (pool_step_extends _ _ _ Hstep) as Hext.
  pose proof (pool_step_wf _ _ _ Hstep (proj1 (proj2 (proj2 (proj2 Hplain))))) as Hwf.
  destruct s as [p w], s' as [p' w']. destruct Hstep as [[| |e|] Hrun]; simpl in *.
  - unfold bind in Hrun. pose proof (pool_plain_generate p w Hplain) as H.
    destruct (Pool.generate apply (p, w)) as [[] ?]; simpl in *; by subst.
  - unfold bind in Hrun. rewrite pool_reserve_plain in Hrun by done.
    destruct (Pool.stack p) eqn:Hs.
    + pose proof (pool_plain_generate p w Hplain) as H.
      destruct (Pool.generate apply (p, w)) as [[] ?]; simpl in *; by subst.
    + unfold Pool.stack_pop in Hrun. rewrite Hs in Hrun.
      destruct (last _); simpl in Hrun; injection Hrun as <- <-;
        by apply (pool_plain_same_registry p w).
  - rewrite pool_release_plain in Hrun by done.
    destruct (negb _); [|destruct (_ =? _)]; simpl in Hrun; injection Hrun as <- <-;
      by apply (pool_plain_same_registry p w).
  - injection Hrun as <- <-. by apply (pool_plain_same_registry p w).
Qed.

Lemma pool_plain_steps (s s' : Pool.t * world U) :
  pool_plain s → rtc (pool_step apply) s s' → pool_plain s'.
Proof.
  intros Hplain Hsteps. revert Hplain.
  induction Hsteps as [|s1 s2 s3 H12 _ IH]; [done|].
  intros Hplain. apply IH. by eapply pool_plain_step.
Qed.

Lemma pool_plain_constructed DEV rnd (w0 w1 : world U) P :
  Pool.constructor DEV rnd Pool.EMPTY_OBJECT w0 = (Normal P, w1) → pool_plain (P, w1).
Proof.
  rewrite pool_constructor_eq. cbv zeta. simpl. intros [= <- <-].
  split; [done|]. split; [done|]. split; [done|]. split.
  - split; [apply Forall_nil_2|apply NoDup_nil_2].
  - simpl. intros r [x Hx]. by rewrite lookup_empty in Hx.
Qed.

(** X12.  A pool built with the default options never hands the same
    object to two reservations in a row: in every state it reaches, two
    successive calls of [reserve()] return different entries (two distinct
    free entries, or a free entry and an object [getEmptyObject] has just
    created, or two objects it has just created). *)
Theorem pool_default_reservations_differ DEV rnd (w0 w1 : world U) P s x s1 y s2 :
  Pool.constructor DEV rnd Pool.EMPTY_OBJECT w0 = (Normal P, w1) →
  rtc (pool_step apply) (P, w1) s →
  Pool.reserve apply s = (Normal x, s1) →
  Pool.reserve apply s1 = (Normal y, s2) →
  x ≠ y.
Proof.
  intros Hnew%pool_plain_constructed Hsteps Hx Hy.
  pose proof (pool_plain_steps _ _ Hnew Hsteps) as Hplain.
  assert (pool_plain s1) as Hplain1.
  { eapply pool_plain_step; [done|]. exists PReserve. simpl. unfold bind. by rewrite Hx. }
  destruct s as [p w], s1 as [p1 w1'], s2 as [p2 w2].
  rewrite pool_reserve_plain in Hx, Hy by done.
  destruct Hplain as (Hc & _ & _ & [Hreg Hnd] & Hb).
  destruct Hplain1 as (Hc1 & _ & _ & _). simpl in *.
  unfold pool_stack_registered in Hreg.
  destruct (Pool.stack p) as [|x' l _] eqn:Hs using rev_ind.
  - rewrite pool_generate_default in Hx by done. injection Hx as <- <- <-.
    simpl in Hy. rewrite Hs, pool_generate_default in Hy by done.
    injection Hy as <- _ _. simpl. intros [= H]. lia.
  - apply Forall_app in Hreg as [_ Hlast].
    assert (pool_owns p x') as Hx' by (by inversion Hlast).
    apply NoDup_app in Hnd as (_ & Hdisj & _).
    rewrite list_case_snoc in Hx. unfold Pool.stack_pop in Hx.
    change (l ++ [x']) with (push x' l) in Hx.
    rewrite last_push, removelast_push in Hx. injection Hx as <- <- <-.
    simpl in Hy. destruct l as [|y' l' _] using rev_ind.
    + rewrite pool_generate_default in Hy by done. injection Hy as <- _ _.
      apply weakmap_get_str in Hx' as (r & -> & Hr).
      destruct (Hb r (mk_is_Some _ _ Hr)) as (j & -> & Hj).
      intros [= H]. lia.
    + rewrite list_case_snoc in Hy. unfold Pool.stack_pop in Hy. simpl in Hy.
      change (l' ++ [y']) with (push y' l') in Hy.
      rewrite last_push in Hy. injection Hy as <- _ _.
      intros <-. apply (Hdisj x'); [|by apply list_elem_of_singleton].
      apply elem_of_app. right. by apply list_elem_of_singleton.
Qed.
End PoolPlain.

Lemma pool_default_reservations_differ_witness :
  let s1 := snd (Pool.reserve fns (fresh_pool, w1)) in
  VRef (RObj 0) ≠ VRef (RObj 1)
  ∧ Pool.reserve fns (fresh_pool, w1) = (Normal (VRef (RObj 0)), s1)
  ∧ fst (Pool.reserve fns s1) = Normal (VRef (RObj 1)).
Proof.
  intros s1.
  assert (Pool.constructor true 5 Pool.EMPTY_OBJECT w0 = (Normal fresh_pool, w1))
    as Hnew by reflexivity.
  assert (Pool.reserve fns (fresh_pool, w1) = (Normal (VRef (RObj 0)), s1))
    as Hx by reflexivity.
  assert (Pool.reserve fns s1 = (Normal (VRef (RObj 1)), snd (Pool.reserve fns s1)))
    as Hy by reflexivity.
  split; [|split; [exact Hx|by rewrite Hy]].
  exact (pool_default_reservations_differ fns true 5 w0 w1 fresh_pool (fresh_pool, w1)
           _ s1 _ _ Hnew (rtc_refl _ _) Hx Hy).
Defined.

(** ** [Nage]: a factory that returns one object over and over *)

Section NageSingleton.
Context {U : Type} (apply : behaviour U).
Implicit Types (p : Nage.t) (w : world U) (e : value).


End NageSingleton.

